(** * State replay of the beacon chain (package [stategen], file replay.go)

    A shallow embedding of [replayBlocks], [loadBlocks],
    [executeStateTransitionStateGen], [ReplayProcessSlots] and
    [loadFinalizedBlocks], followed by the properties of the replay core.

    Conventions of the embedding:
    - a Go function returning [(T, error)] returns a [result T]; a run-time
      panic of Go (index out of range, [state.Slot()] on the nil interface)
      is the third outcome [Panic], so that every index expression of the
      source is translated as it stands;
    - the entries of a segment and of a batch of the database are blocks that
      are not nil: [Block().Slot()] and [Block().ParentRoot()] are total on
      them; what Go does when it calls them on a nil entry (a panic, lines
      49, 102 and 124) is outside the model, and the properties about panics
      take the absence of nil entries as a hypothesis;
    - a [for] loop counting an index [i] down to [0] is a [Fixpoint] on
      [n = i + 1], the number of iterations left;
    - the beacon state, the database and the two transition functions are
      collaborators that live in other packages: they are an interface
      ([state.BeaconState]), a record of functions ([db.ReadOnlyDatabase])
      and a record of functions ([transition.Primitives]);
    - tracing spans, logging and metrics are not modelled. *)

From Stdlib Require Import NArith String Sorted.
From stdpp Require Import base numbers list sorting.

Set Default Proof Using "Type".
Local Open Scope N_scope.

(** ** Outcomes and errors *)

(** The two values [ctx.Err()] can take once a context is done. *)
Inductive ctxError : Type :=
| Canceled
| DeadlineExceeded.

(** Errors made by other packages reach this file as opaque values. *)
Definition extError : Type := string.

(** The errors that leave this file.  An error built here ([fmt.Errorf],
    [errors.New], [errUnknownState]) is never the same Go value as one built
    by a collaborator, hence the separate constructor [ErrExternal]. *)
Inductive error : Type :=
| ErrContext (e : ctxError)
| ErrInvalidRange (startSlot endSlot : N)
| ErrLengthMismatch
| ErrEndRootsMismatch
| errUnknownState
| ErrSlotRegression (stateSlot slot : N)
| ErrNilBlock
| ErrWrap (cause : error) (msg : string)
| ErrExternal (e : extError).

Inductive result (A : Type) : Type :=
| Ok (a : A)
| Fail (e : error)
| Panic.
Arguments Ok {A} a.
Arguments Fail {A} e.
Arguments Panic {A}.

#[global] Instance result_ret : MRet result := fun _ a => Ok a.
#[global] Instance result_bind : MBind result := fun _ _ f m =>
  match m with
  | Ok a => f a
  | Fail e => Fail e
  | Panic => Panic
  end.

(** [l[i]] of Go: a panic when [i] is out of range. *)
Definition index {A : Type} (l : list A) (i : nat) : result A :=
  match l !! i with
  | Some a => Ok a
  | None => Panic
  end.

(** A call into another package that returns [(T, error)]. *)
Definition call {A : Type} (r : A + extError) : result A :=
  match r with
  | inl a => Ok a
  | inr e => Fail (ErrExternal e)
  end.

(** [errors.Wrap(err, msg)] on the error path of a result. *)
Definition wrap {A : Type} (msg : string) (r : result A) : result A :=
  match r with
  | Fail e => Fail (ErrWrap e msg)
  | _ => r
  end.

(** ** The packages replay.go imports *)

Module primitives.
(** [primitives.Slot] is a [uint64]; the file only compares slots. *)
Definition Slot : Type := N.
End primitives.

Module context.
(** What this file reads of a [context.Context]: the answer of [Err()],
    the same for the whole of one call. *)
Record Context : Type := { Err : option ctxError }.
End context.

Module interfaces.
(** [interfaces.ReadOnlySignedBeaconBlock], read through [Block().Slot()]
    and [Block().ParentRoot()]; a root is a [[32]byte], here the 256-bit
    number it spells.  A value of the record is an entry on which the two
    accessors return; [IsNil] is what the nil test of
    [executeStateTransitionStateGen] answers on it. *)
Record ReadOnlySignedBeaconBlock : Type := {
  IsNil : bool;
  Slot : primitives.Slot;
  ParentRoot : N;
  Body : N
}.
End interfaces.

Module blocks.
(** Modelled from the spec: [blocks.BeaconBlockIsNil] is not in this file;
    the block applier "fails with NilBlock if the block is structurally
    nil". *)
Definition BeaconBlockIsNil (b : interfaces.ReadOnlySignedBeaconBlock)
  : option error :=
  if interfaces.IsNil b then Some ErrNilBlock else None.
End blocks.

Module state.
(** The methods of [state.BeaconState] that replay.go calls. *)
Class BeaconState (St : Type) : Type := {
  Slot : St -> primitives.Slot;
  IsNil : St -> bool
}.
End state.

Module filters.
(** [filters.NewFilter().SetStartSlot(s).SetEndSlot(e)] *)
Record QueryFilter : Type := { StartSlot : primitives.Slot; EndSlot : primitives.Slot }.
End filters.

Module db.
Record ReadOnlyDatabase : Type := {
  Blocks : context.Context -> filters.QueryFilter ->
           (list interfaces.ReadOnlySignedBeaconBlock * list N) + extError;
  IsFinalizedBlock : context.Context -> N -> bool
}.
End db.

Module transition.
(** [transition.ProcessSlotsCore] and [transition.ProcessBlockForStateRoot];
    on success they hand back a state that is not nil. *)
Record Primitives (St : Type) : Type := {
  ProcessSlotsCore : context.Context -> St -> primitives.Slot -> St + extError;
  ProcessBlockForStateRoot :
    context.Context -> St -> interfaces.ReadOnlySignedBeaconBlock -> St + extError
}.
Arguments ProcessSlotsCore {St} _ _ _ _.
Arguments ProcessBlockForStateRoot {St} _ _ _ _.
End transition.

(** ** Package stategen *)

Module stategen.

Abbreviation Block := interfaces.ReadOnlySignedBeaconBlock.

(** The receiver [s *State], of which replay.go uses [s.beaconDB]. *)
Record State : Type := { beaconDB : db.ReadOnlyDatabase }.

(** [if ctx.Err() != nil { return nil, ctx.Err() }] followed by [k]. *)
Definition checkCtx {A : Type} (ctx : context.Context) (k : result A) : result A :=
  match context.Err ctx with
  | Some e => Fail (ErrContext e)
  | None => k
  end.

Section Replay.
Context {St : Type} `{!state.BeaconState St} (T : transition.Primitives St).

(** [ReplayProcessSlots]; a Go interface value is [None] when it is the
    nil interface. *)
Definition ReplayProcessSlots (ctx : context.Context) (st : option St)
    (slot : primitives.Slot) : result St :=
  match st with
  | None => Fail errUnknownState
  | Some s =>
      if state.IsNil s then Fail errUnknownState
      else if slot <? state.Slot s then
        Fail (ErrSlotRegression (state.Slot s) slot)
      else if state.Slot s =? slot then Ok s
      else call (transition.ProcessSlotsCore T ctx s slot)
  end.

(** [executeStateTransitionStateGen] *)
Definition executeStateTransitionStateGen (ctx : context.Context) (st : St)
    (signed : Block) : result St :=
  checkCtx ctx
    match blocks.BeaconBlockIsNil signed with
    | Some err => Fail err
    | None =>
        st1 ← wrap "could not process slot"
                (ReplayProcessSlots ctx (Some st) (interfaces.Slot signed));
        wrap "could not process block"
          (call (transition.ProcessBlockForStateRoot T ctx st1 signed))
    end.

(** The loop of [replayBlocks], [for i := len(signed) - 1; i >= 0; i--],
    with [n = i + 1].  [break] leaves with the state, [continue] goes on
    with it. *)
Fixpoint replayLoop (ctx : context.Context) (signed : list Block)
    (targetSlot : primitives.Slot) (n : nat) (st : St) : result St :=
  match n with
  | O => Ok st
  | S i =>
      checkCtx ctx
        (if targetSlot <=? state.Slot st then Ok st
         else
           b ← index signed i;
           if interfaces.Slot b <=? state.Slot st
           then replayLoop ctx signed targetSlot i st
           else
             st' ← executeStateTransitionStateGen ctx st b;
             replayLoop ctx signed targetSlot i st')
  end.

(** [replayBlocks].  The function reads [state.Slot()] for its log line
    before anything else, which panics on the nil interface. *)
Definition replayBlocks (ctx : context.Context) (st : option St)
    (signed : list Block) (targetSlot : primitives.Slot) : result St :=
  match st with
  | None => Panic
  | Some s =>
      s1 ← (if bool_decide (0 < length signed)%nat
            then replayLoop ctx signed targetSlot (length signed) s
            else Ok s);
      if state.Slot s1 <? targetSlot
      then ReplayProcessSlots ctx (Some s1) targetSlot
      else Ok s1
  end.
End Replay.

Section Load.
Variable s : State.
Variable ctx : context.Context.

(** The first loop of [loadBlocks], on [length].  The loop test needs
    [length >= 3], so [length] is matched as [S (S (S k))]:
    [length - 1 = S (S k)], [length - 2 = S k], and after [length--] the
    index [length - 2] is [k].  The three parts of the test are read
    from left to right, as [&&] does. *)
Fixpoint narrowLoop (blks : list Block) (blockRoots : list N)
    (endBlockRoot : N) (length : nat) : result nat :=
  match length with
  | S ((S (S k)) as length1) =>
      b1 ← index blks (S (S k));
      b2 ← index blks (S k);
      if negb (interfaces.Slot b1 =? interfaces.Slot b2) then Ok length
      else
        r1 ← index blockRoots (S (S k));
        if r1 =? endBlockRoot then Ok length
        else
          checkCtx ctx
            (r2 ← index blockRoots k;
             if r2 =? endBlockRoot then Ok (S k)
             else narrowLoop blks blockRoots endBlockRoot length1)
  | _ => Ok length
  end.

(** [filteredBlocks[len(filteredBlocks)-1]] *)
Definition lastBlock (filteredBlocks : list Block) : result Block :=
  index filteredBlocks (length filteredBlocks - 1).

(** The second loop of [loadBlocks], [for i := length - 2; i >= 0; i--],
    with [n = i + 1]. *)
Fixpoint walkLoop (blks : list Block) (blockRoots : list N)
    (n : nat) (filteredBlocks : list Block) : result (list Block) :=
  match n with
  | O => Ok filteredBlocks
  | S i =>
      checkCtx ctx
        (b ← lastBlock filteredBlocks;
         r ← index blockRoots i;
         if negb (interfaces.ParentRoot b =? r)
         then walkLoop blks blockRoots i filteredBlocks
         else
           bi ← index blks i;
           walkLoop blks blockRoots i (filteredBlocks ++ [bi]))
  end.

(** [loadBlocks] *)
Definition loadBlocks (startSlot endSlot : primitives.Slot) (endBlockRoot : N)
    : result (list Block) :=
  if endSlot <? startSlot then Fail (ErrInvalidRange startSlot endSlot)
  else
    '(blks, blockRoots) ←
      call (db.Blocks (beaconDB s) ctx
              {| filters.StartSlot := startSlot; filters.EndSlot := endSlot |});
    if negb (length blks =? length blockRoots)%nat then Fail ErrLengthMismatch
    else if (length blks =? 0)%nat then Ok []
    else
      len ← narrowLoop blks blockRoots endBlockRoot (length blks);
      r ← index blockRoots (len - 1);
      if negb (r =? endBlockRoot) then Fail ErrEndRootsMismatch
      else
        b ← index blks (len - 1);
        walkLoop blks blockRoots (len - 1) [b].

(** The loop of [loadFinalizedBlocks], [for i := len(bs) - 1; i >= 0; i--],
    with [n = i + 1]. *)
Fixpoint finalizedLoop (bs : list Block) (bRoots : list N)
    (n : nat) (fbs : list Block) : result (list Block) :=
  match n with
  | O => Ok fbs
  | S i =>
      r ← index bRoots i;
      if db.IsFinalizedBlock (beaconDB s) ctx r
      then
        b ← index bs i;
        finalizedLoop bs bRoots i (fbs ++ [b])
      else finalizedLoop bs bRoots i fbs
  end.

(** [loadFinalizedBlocks] *)
Definition loadFinalizedBlocks (startSlot endSlot : primitives.Slot)
    : result (list Block) :=
  '(bs, bRoots) ←
    call (db.Blocks (beaconDB s) ctx
            {| filters.StartSlot := startSlot; filters.EndSlot := endSlot |});
  if negb (length bs =? length bRoots)%nat then Fail ErrLengthMismatch
  else finalizedLoop bs bRoots (length bs) [].
End Load.

End stategen.

Import stategen.

(** ** The replay loop with the list of the blocks it applies

    [replayLoopLog] is [replayLoop] with one ghost variable more: the blocks
    handed to [executeStateTransitionStateGen], in the order of the calls. *)

Section ReplayLog.
Context {St : Type} `{!state.BeaconState St} (T : transition.Primitives St).

Fixpoint replayLoopLog (ctx : context.Context) (signed : list Block)
    (targetSlot : primitives.Slot) (n : nat) (st : St) (log : list Block)
    : list Block * result St :=
  match n with
  | O => (log, Ok st)
  | S i =>
      match context.Err ctx with
      | Some e => (log, Fail (ErrContext e))
      | None =>
          if targetSlot <=? state.Slot st then (log, Ok st)
          else
            match signed !! i with
            | None => (log, Panic)
            | Some b =>
                if interfaces.Slot b <=? state.Slot st
                then replayLoopLog ctx signed targetSlot i st log
                else
                  match executeStateTransitionStateGen T ctx st b with
                  | Ok st' => replayLoopLog ctx signed targetSlot i st' (log ++ [b])
                  | Fail e => (log ++ [b], Fail e)
                  | Panic => (log ++ [b], Panic)
                  end
            end
      end
  end.
End ReplayLog.

(** ** The replay engine in the words of its specification

    Steps 1 to 7 of the replay algorithm: the segment is read from its oldest
    (last) element to its newest (first) one. *)

Module ReplaySpec.
Section Spec.
Context {St : Type} `{!state.BeaconState St} (T : transition.Primitives St).

(** Steps 2 to 5, over the blocks listed oldest first. *)
Fixpoint steps (ctx : context.Context) (oldestFirst : list Block)
    (targetSlot : primitives.Slot) (st : St) : result St :=
  match oldestFirst with
  | [] => Ok st
  | b :: rest =>
      match context.Err ctx with
      | Some e => Fail (ErrContext e)
      | None =>
          if targetSlot <=? state.Slot st then Ok st
          else if interfaces.Slot b <=? state.Slot st
          then steps ctx rest targetSlot st
          else
            match executeStateTransitionStateGen T ctx st b with
            | Ok st' => steps ctx rest targetSlot st'
            | Fail e => Fail e
            | Panic => Panic
            end
      end
  end.

(** Step 1, then steps 6 and 7. *)
Definition replay (ctx : context.Context) (st : St) (segment : list Block)
    (targetSlot : primitives.Slot) : result St :=
  match steps ctx (reverse segment) targetSlot st with
  | Ok st1 =>
      if state.Slot st1 <? targetSlot
      then ReplayProcessSlots T ctx (Some st1) targetSlot
      else Ok st1
  | Fail e => Fail e
  | Panic => Panic
  end.
End Spec.
End ReplaySpec.

(** ** Terminal disambiguation in the words of its specification

    "While the two newest entries share the same slot and the newest root
    does not equal the terminal root, narrow the window by dropping the
    newest entry."  The window is the first [length] entries of the batch;
    the result is the length of the narrowed window. *)

Module NarrowSpec.
Fixpoint narrow (blks : list Block) (roots : list N) (terminalRoot : N)
    (length : nat) : nat :=
  match length with
  | S ((S k) as length1) =>
      match blks !! S k, blks !! k, roots !! S k with
      | Some newest, Some second, Some newestRoot =>
          if (interfaces.Slot newest =? interfaces.Slot second)
             && negb (newestRoot =? terminalRoot)
          then narrow blks roots terminalRoot length1
          else length
      | _, _, _ => length
      end
  | _ => length
  end.

(** The narrowed window ends with the terminal root. *)
Definition terminalFound (blks : list Block) (roots : list N)
    (terminalRoot : N) : bool :=
  match roots !! (narrow blks roots terminalRoot (length blks) - 1)%nat with
  | Some r => r =? terminalRoot
  | None => false
  end.
End NarrowSpec.

(** ** What a canonical segment is

    [Canonical blks roots cur b idxs seg]: starting from the block [b] found
    at position [cur] of the batch, [seg] lists the blocks found at the
    positions [idxs], each one the nearest older candidate whose root is the
    parent root of the block before it; every candidate in between, and every
    candidate older than the last block, has another root. *)

Inductive Canonical (blks : list Block) (roots : list N)
  : nat -> Block -> list nat -> list Block -> Prop :=
| Canonical_end cur b :
    (forall c, (c < cur)%nat -> roots !! c <> Some (interfaces.ParentRoot b)) ->
    Canonical blks roots cur b [] []
| Canonical_step cur b j bj idxs seg :
    (j < cur)%nat ->
    blks !! j = Some bj ->
    roots !! j = Some (interfaces.ParentRoot b) ->
    (forall c, (j < c < cur)%nat -> roots !! c <> Some (interfaces.ParentRoot b)) ->
    Canonical blks roots j bj idxs seg ->
    Canonical blks roots cur b (j :: idxs) (bj :: seg).

(** The slots of a segment, newest first, strictly descending. *)
Definition descending (segment : list Block) : Prop :=
  StronglySorted (fun a b => interfaces.Slot b < interfaces.Slot a) segment.

(** The slots of a list of blocks, strictly increasing. *)
Definition increasing (l : list Block) : Prop :=
  StronglySorted (fun a b => interfaces.Slot a < interfaces.Slot b) l.

(** ** A state that records what is done to it

    The scenarios run the replay on a state that carries its slot and the
    list of the transitions it went through. *)

Module Scenario.

Inductive event : Type :=
| Advanced (fromSlot toSlot : N)
| Applied (blockSlot : N).

Record TraceState : Type := {
  slot : N;
  isNil : bool;
  history : list event
}.

#[global] Instance TraceState_BeaconState : state.BeaconState TraceState :=
  {| state.Slot := slot; state.IsNil := isNil |}.

Definition tracing : transition.Primitives TraceState :=
  {| transition.ProcessSlotsCore := fun _ st target =>
       if target <? slot st then inr "expected state.slot < slot"%string
       else
         inl {| slot := target; isNil := isNil st;
                history := history st ++ [Advanced (slot st) target] |};
     transition.ProcessBlockForStateRoot := fun _ st b =>
       inl {| slot := slot st; isNil := isNil st;
              history := history st ++ [Applied (interfaces.Slot b)] |} |}.

Definition live : context.Context := {| context.Err := None |}.
Definition cancelled : context.Context := {| context.Err := Some Canceled |}.

Definition stateAt (n : N) : TraceState :=
  {| slot := n; isNil := false; history := [] |}.

(** A block at [slot] whose parent has root [parent]. *)
Definition blockWith (slot parent body : N) : Block :=
  {| interfaces.IsNil := false; interfaces.Slot := slot;
     interfaces.ParentRoot := parent; interfaces.Body := body |}.

Definition block (slot parent : N) : Block := blockWith slot parent 0.

(** A database that answers every query with the same batch and holds
    every block finalized. *)
Definition fixedDB (blks : list Block) (roots : list N) : State :=
  {| beaconDB :=
       {| db.Blocks := fun _ _ => inl (blks, roots);
          db.IsFinalizedBlock := fun _ _ => true |} |}.

(** A batch with forks, in the order of the slots.  The blocks of roots
    1, 2, 4 and 6 form the chain that ends at root 6; the block of root 3
    is a sibling of the one of root 2, listed after it; the block of root 5
    is a sibling of the one of root 4, listed before it. *)
Definition forkedBlocks : list Block :=
  [blockWith 1 0 1; blockWith 2 1 2; blockWith 2 1 3;
   blockWith 3 3 5; blockWith 3 2 4; blockWith 4 4 6].
Definition forkedRoots : list N := [1; 2; 3; 5; 4; 6].

(** A chain of three blocks, of roots 1, 2 and 3. *)
Definition chainBlocks : list Block :=
  [blockWith 1 0 1; blockWith 2 1 2; blockWith 3 2 3].
Definition chainRoots : list N := [1; 2; 3].

(** Two blocks of the same slot, of roots 11 and 12, and nothing else. *)
Definition twinBlocks : list Block := [blockWith 5 1 11; blockWith 5 1 12].
Definition twinRoots : list N := [11; 12].

(** A block at slot 4 of root 21, then two blocks at slot 5. *)
Definition staleBlocks : list Block :=
  [blockWith 4 1 21; blockWith 5 21 22; blockWith 5 21 23].
Definition staleRoots : list N := [21; 22; 23].

End Scenario.

(** ** Reading the results of the replay and of the loaders *)

Section ApplyAll.
Context {St : Type} `{!state.BeaconState St} (T : transition.Primitives St).

(** [executeStateTransitionStateGen] on the blocks of a list, one after the
    other, each on the state the one before returned. *)
Fixpoint applyAll (ctx : context.Context) (st : St) (l : list Block) : result St :=
  match l with
  | [] => Ok st
  | b :: rest =>
      match executeStateTransitionStateGen T ctx st b with
      | Ok st' => applyAll ctx st' rest
      | Fail e => Fail e
      | Panic => Panic
      end
  end.
End ApplyAll.

(** An error that is the slot-regression error of [ReplayProcessSlots], bare
    or under [errors.Wrap]. *)
Fixpoint isSlotRegression (e : error) : bool :=
  match e with
  | ErrSlotRegression _ _ => true
  | ErrWrap cause _ => isSlotRegression cause
  | _ => false
  end.

(** The blocks of a batch whose roots the database holds finalized, the last
    of the batch first. *)
Definition finalizedOf (s : State) (ctx : context.Context)
    (bs : list Block) (bRoots : list N) : list Block :=
  reverse
    (fst <$>
       List.filter (fun p => db.IsFinalizedBlock (beaconDB s) ctx (snd p))
         (zip bs bRoots)).

(** The slots of a list of blocks never go down, or never go up. *)
Definition ascending (l : list Block) : Prop :=
  StronglySorted (fun a b => interfaces.Slot a <= interfaces.Slot b) l.

Definition nonIncreasing (l : list Block) : Prop :=
  StronglySorted (fun a b => interfaces.Slot b <= interfaces.Slot a) l.

(** A database for the cold part of the chain: it answers every query with
    the same batch and holds finalized the roots of a list. *)
Module ColdScenario.

Definition coldDB (blks : list Block) (roots finalized : list N) : State :=
  {| beaconDB :=
       {| db.Blocks := fun _ _ => inl (blks, roots);
          db.IsFinalizedBlock := fun _ r => bool_decide (r ∈ finalized) |} |}.

End ColdScenario.

(** Transition functions that do nothing: they hand back the state they
    were given. *)
Module LazyScenario.


End LazyScenario.

(** * Properties *)

(** ** Outcomes *)

Ltac unfold_result :=
  unfold mbind, result_bind, mret, result_ret, checkCtx, index, call, wrap in *.

Lemma bind_Ok_inv {A B : Type} (m : result A) (f : A -> result B) (b : B) :
  m ≫= f = Ok b -> exists a, m = Ok a /\ f a = Ok b.
Proof.
  destruct m as [a| |]; unfold_result; intros Hm; try discriminate.
  exists a. split; [reflexivity | exact Hm].
Qed.

Lemma wrap_Ok_inv {A : Type} (msg : string) (r : result A) (a : A) :
  wrap msg r = Ok a -> r = Ok a.
Proof. destruct r; simpl; intros Hr; try discriminate; exact Hr. Qed.

Lemma call_Ok_inv {A : Type} (r : A + extError) (a : A) :
  call r = Ok a -> r = inl a.
Proof. destruct r; simpl; intros Hr; inversion Hr; reflexivity. Qed.

Lemma index_Some {A : Type} (l : list A) (i : nat) (a : A) :
  l !! i = Some a -> index l i = Ok a.
Proof. unfold index. intros ->. reflexivity. Qed.

(** ** The slot advancer and the block applier *)

Section ReplayFacts.
Context {St : Type} `{!state.BeaconState St} (T : transition.Primitives St).

Lemma ReplayProcessSlots_Ok_inv ctx (s s' : St) (t : N) :
  ReplayProcessSlots T ctx (Some s) t = Ok s' ->
  state.IsNil s = false /\
  ((state.Slot s = t /\ s' = s) \/
   (state.Slot s < t /\ transition.ProcessSlotsCore T ctx s t = inl s')).
Proof.
  unfold ReplayProcessSlots.
  destruct (state.IsNil s); [discriminate|].
  destruct (N.ltb_spec t (state.Slot s)); [discriminate|].
  destruct (N.eqb_spec (state.Slot s) t) as [Heq|Hne]; intros Hr.
  - inversion Hr. subst s'. auto.
  - apply call_Ok_inv in Hr. split; [reflexivity|]. right. split; [lia | exact Hr].
Qed.

Lemma executeStateTransitionStateGen_Ok_inv ctx (s s' : St) (b : Block) :
  executeStateTransitionStateGen T ctx s b = Ok s' ->
  context.Err ctx = None /\
  exists s1, ReplayProcessSlots T ctx (Some s) (interfaces.Slot b) = Ok s1 /\
             transition.ProcessBlockForStateRoot T ctx s1 b = inl s'.
Proof.
  unfold executeStateTransitionStateGen, checkCtx, blocks.BeaconBlockIsNil.
  destruct (context.Err ctx); [discriminate|].
  destruct (interfaces.IsNil b); [discriminate|].
  intros Hr. apply bind_Ok_inv in Hr as (s1 & H1 & H2).
  apply wrap_Ok_inv in H1. apply wrap_Ok_inv, call_Ok_inv in H2.
  split; [reflexivity|]. exists s1. auto.
Qed.

(** One iteration of the loop of [replayBlocks], by cases. *)
Lemma replayLoop_S ctx signed t i (s : St) :
  replayLoop T ctx signed t (S i) s =
  match context.Err ctx with
  | Some e => Fail (ErrContext e)
  | None =>
      if t <=? state.Slot s then Ok s
      else match signed !! i with
           | None => Panic
           | Some b =>
               if interfaces.Slot b <=? state.Slot s
               then replayLoop T ctx signed t i s
               else match executeStateTransitionStateGen T ctx s b with
                    | Ok s' => replayLoop T ctx signed t i s'
                    | Fail e => Fail e
                    | Panic => Panic
                    end
           end
  end.
Proof.
  simpl. unfold_result.
  destruct (context.Err ctx); [reflexivity|].
  destruct (t <=? state.Slot s); [reflexivity|].
  destruct (signed !! i); reflexivity.
Qed.

Lemma replayBlocks_Some ctx (s : St) signed t :
  replayBlocks T ctx (Some s) signed t =
  match replayLoop T ctx signed t (length signed) s with
  | Ok s1 =>
      if state.Slot s1 <? t then ReplayProcessSlots T ctx (Some s1) t else Ok s1
  | Fail e => Fail e
  | Panic => Panic
  end.
Proof.
  unfold replayBlocks. destruct signed as [|b l]; [reflexivity|].
  rewrite bool_decide_eq_true_2 by (simpl; lia). reflexivity.
Qed.

Section Monotone.
Hypothesis slots_monotone : forall ctx (s s' : St) t,
  transition.ProcessSlotsCore T ctx s t = inl s' -> state.Slot s <= state.Slot s'.
Hypothesis block_monotone : forall ctx (s s' : St) b,
  transition.ProcessBlockForStateRoot T ctx s b = inl s' ->
  state.Slot s <= state.Slot s'.

Lemma ReplayProcessSlots_monotone ctx (s s' : St) t :
  ReplayProcessSlots T ctx (Some s) t = Ok s' -> state.Slot s <= state.Slot s'.
Proof using slots_monotone.
  intros Hr. apply ReplayProcessSlots_Ok_inv in Hr as [_ [[_ ->]|[_ Hr]]].
  - lia.
  - eapply slots_monotone, Hr.
Qed.

Lemma executeStateTransitionStateGen_monotone ctx (s s' : St) b :
  executeStateTransitionStateGen T ctx s b = Ok s' ->
  state.Slot s <= state.Slot s'.
Proof using slots_monotone block_monotone.
  intros Hr. apply executeStateTransitionStateGen_Ok_inv in Hr as (_ & s1 & H1 & H2).
  apply ReplayProcessSlots_monotone in H1. apply block_monotone in H2. lia.
Qed.

Lemma replayLoop_monotone ctx signed t n : forall (s s' : St),
  replayLoop T ctx signed t n s = Ok s' -> state.Slot s <= state.Slot s'.
Proof using slots_monotone block_monotone.
  induction n as [|i IH]; intros s s'.
  - simpl. intros Hr. inversion Hr. lia.
  - rewrite replayLoop_S.
    destruct (context.Err ctx); [discriminate|].
    destruct (t <=? state.Slot s); [intros Hr; inversion Hr; lia|].
    destruct (signed !! i) as [b|]; [|discriminate].
    destruct (interfaces.Slot b <=? state.Slot s); [apply IH|].
    destruct (executeStateTransitionStateGen T ctx s b) as [s1| |] eqn:He;
      try discriminate.
    intros Hr. apply IH in Hr.
    apply executeStateTransitionStateGen_monotone in He. lia.
Qed.

Lemma replayBlocks_monotone ctx (s s' : St) signed t :
  replayBlocks T ctx (Some s) signed t = Ok s' -> state.Slot s <= state.Slot s'.
Proof using slots_monotone block_monotone.
  rewrite replayBlocks_Some.
  destruct (replayLoop T ctx signed t (length signed) s) as [s1| |] eqn:Hl;
    try discriminate.
  apply replayLoop_monotone in Hl.
  destruct (state.Slot s1 <? t).
  - intros Hr. apply ReplayProcessSlots_monotone in Hr. lia.
  - intros Hr. inversion Hr. subst. exact Hl.
Qed.
End Monotone.
End ReplayFacts.

(** C4. The slot of the state never goes down through [ReplayProcessSlots],
    [executeStateTransitionStateGen] or [replayBlocks], provided the two
    transition functions of package [transition] never lower it. *)
Theorem slot_never_regresses {St : Type} `{!state.BeaconState St}
    (T : transition.Primitives St)
    (slots_monotone : forall ctx (s s' : St) t,
       transition.ProcessSlotsCore T ctx s t = inl s' ->
       state.Slot s <= state.Slot s')
    (block_monotone : forall ctx (s s' : St) b,
       transition.ProcessBlockForStateRoot T ctx s b = inl s' ->
       state.Slot s <= state.Slot s')
    (ctx : context.Context) (s s' : St) :
  (forall t, ReplayProcessSlots T ctx (Some s) t = Ok s' ->
             state.Slot s <= state.Slot s') /\
  (forall b, executeStateTransitionStateGen T ctx s b = Ok s' ->
             state.Slot s <= state.Slot s') /\
  (forall signed t, replayBlocks T ctx (Some s) signed t = Ok s' ->
                    state.Slot s <= state.Slot s').
Proof.
  split; [|split].
  - intros t. apply ReplayProcessSlots_monotone, slots_monotone.
  - intros b. apply executeStateTransitionStateGen_monotone; assumption.
  - intros signed t. apply replayBlocks_monotone; assumption.
Qed.

Lemma tracing_ProcessSlotsCore ctx (s s' : Scenario.TraceState) t :
  transition.ProcessSlotsCore Scenario.tracing ctx s t = inl s' ->
  Scenario.slot s <= t /\ Scenario.slot s' = t.
Proof.
  simpl. destruct (N.ltb_spec t (Scenario.slot s)); intros Hr; inversion Hr.
  simpl. lia.
Qed.

Lemma tracing_ProcessBlockForStateRoot ctx (s s' : Scenario.TraceState) b :
  transition.ProcessBlockForStateRoot Scenario.tracing ctx s b = inl s' ->
  Scenario.slot s' = Scenario.slot s.
Proof. simpl. intros Hr. inversion Hr. reflexivity. Qed.

Lemma slot_never_regresses_witness :
  exists s' : Scenario.TraceState,
    replayBlocks Scenario.tracing Scenario.live (Some (Scenario.stateAt 10))
      [Scenario.block 15 2; Scenario.block 12 1] 13 = Ok s' /\
    state.Slot (Scenario.stateAt 10) <= state.Slot s'.
Proof.
  eexists. split; [vm_compute; reflexivity|].
  eapply (proj2 (proj2 (slot_never_regresses Scenario.tracing _ _
            Scenario.live (Scenario.stateAt 10) _))
            [Scenario.block 15 2; Scenario.block 12 1] 13).
  vm_compute; reflexivity.
  Unshelve.
  - intros ctx s s' t Hr. apply tracing_ProcessSlotsCore in Hr. simpl. lia.
  - intros ctx s s' b Hr. apply tracing_ProcessBlockForStateRoot in Hr. simpl. lia.
Defined.

(** C7. The boundary contract of [ReplayProcessSlots]: a nil or empty state
    gives [errUnknownState]; for a state that is not nil the slot-regression
    error comes out exactly when the target is below the slot of the state;
    and a target equal to the slot of the state gives the input state back,
    whatever the transition functions are. *)
Theorem ReplayProcessSlots_boundary {St : Type} `{!state.BeaconState St}
    (T : transition.Primitives St) (ctx : context.Context)
    (st : option St) (slot : primitives.Slot) :
  ((st = None \/ exists s, st = Some s /\ state.IsNil s = true) ->
   ReplayProcessSlots T ctx st slot = Fail errUnknownState) /\
  (forall s, st = Some s -> state.IsNil s = false ->
     ((exists a b, ReplayProcessSlots T ctx st slot = Fail (ErrSlotRegression a b))
      <-> slot < state.Slot s) /\
     (slot < state.Slot s ->
      ReplayProcessSlots T ctx st slot = Fail (ErrSlotRegression (state.Slot s) slot)) /\
     (slot = state.Slot s ->
      forall T' : transition.Primitives St,
        ReplayProcessSlots T' ctx st slot = Ok s)).
Proof.
  split.
  - intros [->|(s & -> & Hnil)]; [reflexivity|].
    unfold ReplayProcessSlots. rewrite Hnil. reflexivity.
  - intros s -> Hnil. unfold ReplayProcessSlots. rewrite Hnil.
    destruct (N.ltb_spec slot (state.Slot s)) as [Hlt|Hge].
    + split; [|split].
      * split; [intros _; exact Hlt | intros _; eauto].
      * reflexivity.
      * intros Heq. lia.
    + split; [|split].
      * split; [|lia]. intros (a & b & Hr).
        destruct (state.Slot s =? slot); [discriminate|].
        destruct (transition.ProcessSlotsCore T ctx s slot); discriminate.
      * lia.
      * intros Heq T'. subst slot. rewrite N.eqb_refl. reflexivity.
Qed.

Lemma ReplayProcessSlots_boundary_witness :
  ReplayProcessSlots Scenario.tracing Scenario.live (@None Scenario.TraceState) 7
    = Fail errUnknownState /\
  ReplayProcessSlots Scenario.tracing Scenario.live (Some (Scenario.stateAt 9)) 7
    = Fail (ErrSlotRegression 9 7) /\
  ReplayProcessSlots Scenario.tracing Scenario.live (Some (Scenario.stateAt 7)) 7
    = Ok (Scenario.stateAt 7).
Proof.
  split; [|split].
  - apply (proj1 (ReplayProcessSlots_boundary Scenario.tracing Scenario.live None 7)).
    left. reflexivity.
  - destruct (ReplayProcessSlots_boundary Scenario.tracing Scenario.live
                (Some (Scenario.stateAt 9)) 7) as [_ Hsome].
    destruct (Hsome (Scenario.stateAt 9) eq_refl eq_refl) as (_ & Hlt & _).
    apply Hlt. simpl. lia.
  - destruct (ReplayProcessSlots_boundary Scenario.tracing Scenario.live
                (Some (Scenario.stateAt 7)) 7) as [_ Hsome].
    destruct (Hsome (Scenario.stateAt 7) eq_refl eq_refl) as (_ & _ & Heq).
    apply Heq. reflexivity.
Defined.

(** C5. With an empty segment and a target above the slot of the state,
    [replayBlocks] gives what [ReplayProcessSlots] gives, state or error. *)
Theorem replayBlocks_empty_segment {St : Type} `{!state.BeaconState St}
    (T : transition.Primitives St) (ctx : context.Context) (s : St)
    (targetSlot : primitives.Slot) :
  state.Slot s < targetSlot ->
  replayBlocks T ctx (Some s) [] targetSlot = ReplayProcessSlots T ctx (Some s) targetSlot.
Proof.
  intros Hlt. rewrite replayBlocks_Some. simpl.
  destruct (N.ltb_spec (state.Slot s) targetSlot); [reflexivity | lia].
Qed.

Lemma replayBlocks_empty_segment_witness :
  replayBlocks Scenario.tracing Scenario.live (Some (Scenario.stateAt 10)) [] 20
  = ReplayProcessSlots Scenario.tracing Scenario.live (Some (Scenario.stateAt 10)) 20
  /\ replayBlocks Scenario.tracing Scenario.live (Some (Scenario.stateAt 10)) [] 20
     = Ok {| Scenario.slot := 20; Scenario.isNil := false;
             Scenario.history := [Scenario.Advanced 10 20] |}.
Proof.
  split.
  - apply replayBlocks_empty_segment. simpl. lia.
  - vm_compute. reflexivity.
Defined.

(** ** Redundant blocks *)

Section Redundant.
Context {St : Type} `{!state.BeaconState St} (T : transition.Primitives St).

(** The iterations left only read the entries their indices reach. *)
Lemma replayLoop_app_l ctx keep old t n : forall s : St,
  (n <= length keep)%nat ->
  replayLoop T ctx (keep ++ old) t n s = replayLoop T ctx keep t n s.
Proof.
  induction n as [|i IH]; intros s Hn; [reflexivity|].
  rewrite !replayLoop_S, lookup_app_l by lia.
  destruct (context.Err ctx); [reflexivity|].
  destruct (t <=? state.Slot s); [reflexivity|].
  destruct (keep !! i) as [b|]; [|reflexivity].
  destruct (interfaces.Slot b <=? state.Slot s); [apply IH; lia|].
  destruct (executeStateTransitionStateGen T ctx s b); try reflexivity.
  apply IH. lia.
Qed.

Lemma replayLoop_target_reached ctx signed t n (s : St) :
  context.Err ctx = None -> t <= state.Slot s ->
  replayLoop T ctx signed t n s = Ok s.
Proof.
  intros Hctx Ht. destruct n as [|i]; [reflexivity|].
  rewrite replayLoop_S, Hctx.
  destruct (N.leb_spec t (state.Slot s)); [reflexivity | lia].
Qed.

Lemma replayLoop_skip_old ctx keep old t (s : St) :
  context.Err ctx = None ->
  Forall (fun b => interfaces.Slot b <= state.Slot s) old ->
  forall k, (k <= length old)%nat ->
    replayLoop T ctx (keep ++ old) t (length keep + k) s
    = replayLoop T ctx keep t (length keep) s.
Proof.
  intros Hctx Hold k. induction k as [|k IH]; intros Hk.
  - rewrite Nat.add_0_r. apply replayLoop_app_l. lia.
  - rewrite Nat.add_succ_r, replayLoop_S, Hctx.
    destruct (N.leb_spec t (state.Slot s)) as [Ht|Ht].
    + symmetry. apply replayLoop_target_reached; assumption.
    + rewrite lookup_app_r by lia.
      replace (length keep + k - length keep)%nat with k by lia.
      destruct (lookup_lt_is_Some_2 old k) as [b Hb]; [lia|].
      rewrite Hb.
      rewrite Forall_lookup in Hold. specialize (Hold k b Hb). simpl in Hold.
      destruct (N.leb_spec (interfaces.Slot b) (state.Slot s)); [|lia].
      apply IH. lia.
Qed.

Lemma replayLoop_cancelled ctx signed t i (s : St) e :
  context.Err ctx = Some e ->
  replayLoop T ctx signed t (S i) s = Fail (ErrContext e).
Proof. intros Hctx. rewrite replayLoop_S, Hctx. reflexivity. Qed.
End Redundant.

(** C6, as the code has it.  Blocks at the old end of the segment whose
    slots are at or before the slot of the state change nothing, as long as
    the context is not cancelled or some block is left once they are
    removed. *)
Theorem replayBlocks_redundant_blocks {St : Type} `{!state.BeaconState St}
    (T : transition.Primitives St) (ctx : context.Context) (s : St)
    (keep old : list Block) (targetSlot : primitives.Slot) :
  Forall (fun b => interfaces.Slot b <= state.Slot s) old ->
  context.Err ctx = None \/ keep <> [] ->
  replayBlocks T ctx (Some s) (keep ++ old) targetSlot
  = replayBlocks T ctx (Some s) keep targetSlot.
Proof.
  intros Hold Hside. rewrite !replayBlocks_Some.
  assert (replayLoop T ctx (keep ++ old) targetSlot (length (keep ++ old)) s
          = replayLoop T ctx keep targetSlot (length keep) s) as ->; [|reflexivity].
  rewrite length_app.
  destruct (context.Err ctx) as [e|] eqn:Hctx.
  - destruct Hside as [?|Hkeep]; [discriminate|].
    destruct keep as [|b keep]; [congruence|]. cbn [length Nat.add].
    rewrite !(replayLoop_cancelled T ctx _ _ _ _ e) by assumption. reflexivity.
  - apply replayLoop_skip_old; auto.
Qed.

Lemma replayBlocks_redundant_blocks_witness :
  replayBlocks Scenario.tracing Scenario.live (Some (Scenario.stateAt 10))
    ([Scenario.block 15 2; Scenario.block 12 1] ++ [Scenario.block 10 0; Scenario.block 9 0]) 20
  = replayBlocks Scenario.tracing Scenario.live (Some (Scenario.stateAt 10))
      [Scenario.block 15 2; Scenario.block 12 1] 20.
Proof.
  apply replayBlocks_redundant_blocks.
  - repeat constructor; simpl; lia.
  - left. reflexivity.
Defined.

(** C6, as the claim has it, fails: under a cancelled context a segment made
    of one redundant block is answered with the cancellation error, the empty
    segment with the state. *)
Lemma replayBlocks_redundant_blocks_cancelled :
  Forall (fun b => interfaces.Slot b <= state.Slot (Scenario.stateAt 10))
         [Scenario.block 5 0] /\
  replayBlocks Scenario.tracing Scenario.cancelled (Some (Scenario.stateAt 10))
    ([] ++ [Scenario.block 5 0]) 10 = Fail (ErrContext Canceled) /\
  replayBlocks Scenario.tracing Scenario.cancelled (Some (Scenario.stateAt 10))
    [] 10 = Ok (Scenario.stateAt 10) /\
  replayBlocks Scenario.tracing Scenario.cancelled (Some (Scenario.stateAt 10))
    ([] ++ [Scenario.block 5 0]) 10
  <> replayBlocks Scenario.tracing Scenario.cancelled (Some (Scenario.stateAt 10)) [] 10.
Proof.
  split; [|split; [|split]].
  - repeat constructor. simpl. lia.
  - vm_compute. reflexivity.
  - vm_compute. reflexivity.
  - vm_compute. discriminate.
Qed.

(** ** Reaching and passing the target *)

Section Target.
Context {St : Type} `{!state.BeaconState St} (T : transition.Primitives St).

(** The contract of the two transition functions on slots: advancing to a
    slot ends at that slot, applying a block leaves the slot where it is. *)
Hypothesis slots_reach : forall ctx (s s' : St) t,
  transition.ProcessSlotsCore T ctx s t = inl s' -> state.Slot s' = t.
Hypothesis block_keeps : forall ctx (s s' : St) b,
  transition.ProcessBlockForStateRoot T ctx s b = inl s' ->
  state.Slot s' = state.Slot s.

Lemma ReplayProcessSlots_reach ctx (s s' : St) t :
  ReplayProcessSlots T ctx (Some s) t = Ok s' -> state.Slot s' = t.
Proof using slots_reach.
  intros Hr. apply ReplayProcessSlots_Ok_inv in Hr as [_ [[Heq ->]|[_ Hr]]].
  - exact Heq.
  - eapply slots_reach, Hr.
Qed.

Lemma executeStateTransitionStateGen_reach ctx (s s' : St) b :
  executeStateTransitionStateGen T ctx s b = Ok s' ->
  state.Slot s' = interfaces.Slot b.
Proof using slots_reach block_keeps.
  intros Hr. apply executeStateTransitionStateGen_Ok_inv in Hr as (_ & s1 & H1 & H2).
  apply ReplayProcessSlots_reach in H1. apply block_keeps in H2. congruence.
Qed.

Lemma replayBlocks_at_least ctx (s s' : St) signed t :
  replayBlocks T ctx (Some s) signed t = Ok s' -> t <= state.Slot s'.
Proof using slots_reach.
  rewrite replayBlocks_Some.
  destruct (replayLoop T ctx signed t (length signed) s) as [s1| |]; try discriminate.
  destruct (N.ltb_spec (state.Slot s1) t) as [Hlt|Hge]; intros Hr.
  - apply ReplayProcessSlots_reach in Hr. lia.
  - inversion Hr. subst. exact Hge.
Qed.

(** While the blocks older than the newest one stay below the target, the
    loop reaches the newest block with a state below the target, applies
    it, and ends at its slot. *)
Lemma replayLoop_newest_applied ctx b rest t :
  t < interfaces.Slot b ->
  Forall (fun c => interfaces.Slot c < t) rest ->
  forall n (s s' : St),
    (n <= length rest)%nat -> state.Slot s < t ->
    replayLoop T ctx (b :: rest) t (S n) s = Ok s' ->
    state.Slot s' = interfaces.Slot b.
Proof using slots_reach block_keeps.
  intros Hb Hrest n. induction n as [|m IH]; intros s s' Hn Hs;
    rewrite replayLoop_S;
    (destruct (context.Err ctx); [discriminate|]);
    (destruct (N.leb_spec t (state.Slot s)); [lia|]).
  - simpl. destruct (N.leb_spec (interfaces.Slot b) (state.Slot s)); [lia|].
    destruct (executeStateTransitionStateGen T ctx s b) as [s1| |] eqn:He;
      try discriminate.
    simpl. intros Hr. inversion Hr. subst s1.
    eapply executeStateTransitionStateGen_reach, He.
  - simpl. destruct (lookup_lt_is_Some_2 rest m) as [c Hc]; [lia|].
    rewrite Hc. rewrite Forall_lookup in Hrest. specialize (Hrest m c Hc).
    simpl in Hrest.
    destruct (interfaces.Slot c <=? state.Slot s); [apply IH; lia|].
    destruct (executeStateTransitionStateGen T ctx s c) as [s1| |] eqn:He;
      try discriminate.
    apply executeStateTransitionStateGen_reach in He.
    apply IH; [lia|]. rewrite He. exact Hrest.
Qed.
End Target.



(** ** The order of the replay *)

Section Order.
Context {A : Type} (R : A -> A -> Prop).

Lemma Forall_sublist_of (P : A -> Prop) (l k : list A) :
  l `sublist_of` k -> Forall P k -> Forall P l.
Proof.
  induction 1 as [|x l1 l2 _ IH|x l1 l2 _ IH]; intros Hk.
  - constructor.
  - inversion Hk; subst. constructor; auto.
  - inversion Hk; subst. auto.
Qed.

Lemma StronglySorted_sublist_of (l k : list A) :
  l `sublist_of` k -> StronglySorted R k -> StronglySorted R l.
Proof.
  induction 1 as [|x l1 l2 Hsub IH|x l1 l2 _ IH]; intros Hk.
  - constructor.
  - inversion Hk; subst. constructor; [auto|].
    eapply Forall_sublist_of; eassumption.
  - inversion Hk; subst. auto.
Qed.

Lemma StronglySorted_reverse (l : list A) :
  StronglySorted R l -> StronglySorted (fun a b => R b a) (reverse l).
Proof.
  induction 1 as [|x l _ IH Hx].
  - constructor.
  - rewrite reverse_cons. apply StronglySorted_app_2.
    + intros x1 x2 H1 H2. apply list_elem_of_singleton in H2. subst x2.
      rewrite elem_of_reverse in H1. rewrite Forall_forall in Hx. auto.
    + exact IH.
    + repeat constructor.
Qed.
End Order.

Section ReplayOrder.
Context {St : Type} `{!state.BeaconState St} (T : transition.Primitives St).

(** The loop over the indices is the walk over the blocks oldest first. *)
Lemma replayLoop_steps ctx signed t n : forall s : St,
  (n <= length signed)%nat ->
  replayLoop T ctx signed t n s
  = ReplaySpec.steps T ctx (reverse (take n signed)) t s.
Proof.
  induction n as [|i IH]; intros s Hn.
  - rewrite take_0. reflexivity.
  - destruct (lookup_lt_is_Some_2 signed i) as [b Hb]; [lia|].
    rewrite (take_S_r _ _ _ Hb), reverse_snoc, replayLoop_S, Hb. simpl.
    destruct (context.Err ctx); [reflexivity|].
    destruct (t <=? state.Slot s); [reflexivity|].
    destruct (interfaces.Slot b <=? state.Slot s); [apply IH; lia|].
    destruct (executeStateTransitionStateGen T ctx s b); try reflexivity.
    apply IH. lia.
Qed.

(** The ghost log does not change what the loop computes. *)
Lemma replayLoopLog_snd ctx signed t n : forall (s : St) log,
  snd (replayLoopLog T ctx signed t n s log) = replayLoop T ctx signed t n s.
Proof.
  induction n as [|i IH]; intros s log; [reflexivity|].
  rewrite replayLoop_S. simpl.
  destruct (context.Err ctx); [reflexivity|].
  destruct (t <=? state.Slot s); [reflexivity|].
  destruct (signed !! i) as [b|]; [|reflexivity].
  destruct (interfaces.Slot b <=? state.Slot s); [apply IH|].
  destruct (executeStateTransitionStateGen T ctx s b); try reflexivity.
  apply IH.
Qed.

(** The blocks applied are taken, in their order, from the segment read
    oldest first. *)
Lemma replayLoopLog_fst ctx signed t n : forall (s : St) log,
  (n <= length signed)%nat ->
  exists applied,
    fst (replayLoopLog T ctx signed t n s log) = log ++ applied /\
    applied `sublist_of` reverse (take n signed).
Proof.
  induction n as [|i IH]; intros s log Hn.
  - exists []. rewrite app_nil_r. split; [reflexivity | constructor].
  - destruct (lookup_lt_is_Some_2 signed i) as [b Hb]; [lia|].
    rewrite (take_S_r _ _ _ Hb), reverse_snoc. simpl. rewrite Hb.
    destruct (context.Err ctx).
    { exists []. rewrite app_nil_r. split; [reflexivity | apply sublist_nil_l]. }
    destruct (t <=? state.Slot s).
    { exists []. rewrite app_nil_r. split; [reflexivity | apply sublist_nil_l]. }
    destruct (interfaces.Slot b <=? state.Slot s).
    { destruct (IH s log) as (applied & Hfst & Hsub); [lia|].
      exists applied. split; [exact Hfst | apply sublist_cons, Hsub]. }
    destruct (executeStateTransitionStateGen T ctx s b) as [s1| |].
    + destruct (IH s1 (log ++ [b])) as (applied & Hfst & Hsub); [lia|].
      exists (b :: applied). rewrite Hfst, <- app_assoc.
      split; [reflexivity | apply sublist_skip, Hsub].
    + exists [b]. split; [reflexivity | apply sublist_skip, sublist_nil_l].
    + exists [b]. split; [reflexivity | apply sublist_skip, sublist_nil_l].
Qed.

Lemma replayBlocks_replay ctx (s : St) segment t :
  replayBlocks T ctx (Some s) segment t = ReplaySpec.replay T ctx s segment t.
Proof.
  rewrite replayBlocks_Some, replayLoop_steps, take_ge by lia. reflexivity.
Qed.

Lemma replayLoopLog_sublist ctx (s : St) segment t :
  fst (replayLoopLog T ctx segment t (length segment) s [])
    `sublist_of` reverse segment.
Proof.
  destruct (replayLoopLog_fst ctx segment t (length segment) s [])
    as (applied & -> & Hsub); [lia|].
  rewrite take_ge in Hsub by lia. exact Hsub.
Qed.

Lemma replayLoopLog_increasing ctx (s : St) segment t :
  descending segment ->
  increasing (fst (replayLoopLog T ctx segment t (length segment) s [])).
Proof.
  intros Hd. eapply StronglySorted_sublist_of; [apply replayLoopLog_sublist|].
  apply (StronglySorted_reverse _ _ Hd).
Qed.
End ReplayOrder.

(** C3. [replayBlocks] reads the segment from its last (oldest) element to
    its first (newest) one: it is the replay of the specification, which
    stops once the state is at or after the target, skips a block at or
    before the state, applies the others and ends with the trailing advance.
    On a segment of descending slots the blocks applied have strictly
    increasing slots.  From slot 10, with blocks at 15, 12 and 11 and target
    20, blocks 11, 12 and 15 are applied in that order and the state then
    goes from slot 15 to slot 20. *)
Theorem replayBlocks_oldest_first :
  (forall (St : Type) (B : state.BeaconState St) (T : transition.Primitives St)
          (ctx : context.Context) (s : St) (segment : list Block)
          (targetSlot : primitives.Slot),
     replayBlocks T ctx (Some s) segment targetSlot
       = ReplaySpec.replay T ctx s segment targetSlot /\
     snd (replayLoopLog T ctx segment targetSlot (length segment) s [])
       = replayLoop T ctx segment targetSlot (length segment) s /\
     fst (replayLoopLog T ctx segment targetSlot (length segment) s [])
       `sublist_of` reverse segment /\
     (descending segment ->
      increasing (fst (replayLoopLog T ctx segment targetSlot (length segment) s []))))
  /\
  (let segment := [Scenario.block 15 2; Scenario.block 12 1; Scenario.block 11 0] in
   replayBlocks Scenario.tracing Scenario.live (Some (Scenario.stateAt 10)) segment 20
     = Ok {| Scenario.slot := 20; Scenario.isNil := false;
             Scenario.history :=
               [Scenario.Advanced 10 11; Scenario.Applied 11;
                Scenario.Advanced 11 12; Scenario.Applied 12;
                Scenario.Advanced 12 15; Scenario.Applied 15;
                Scenario.Advanced 15 20] |} /\
   fst (replayLoopLog Scenario.tracing Scenario.live segment 20 (length segment)
          (Scenario.stateAt 10) [])
     = [Scenario.block 11 0; Scenario.block 12 1; Scenario.block 15 2]).
Proof.
  split.
  - intros St B T ctx s segment targetSlot. split; [|split; [|split]].
    + apply replayBlocks_replay.
    + apply replayLoopLog_snd.
    + apply replayLoopLog_sublist.
    + apply replayLoopLog_increasing.
  - split; vm_compute; reflexivity.
Qed.

Lemma replayBlocks_oldest_first_witness :
  increasing
    (fst (replayLoopLog Scenario.tracing Scenario.live
            [Scenario.block 15 2; Scenario.block 12 1; Scenario.block 11 0] 20 3
            (Scenario.stateAt 10) [])).
Proof.
  apply (proj1 replayBlocks_oldest_first Scenario.TraceState _ Scenario.tracing
           Scenario.live (Scenario.stateAt 10)
           [Scenario.block 15 2; Scenario.block 12 1; Scenario.block 11 0] 20).
  repeat constructor.
Defined.

(** ** The loaders *)

Section LoadFacts.
Variable s : State.
Variable ctx : context.Context.

(** The loop of [loadFinalizedBlocks] has no exit but its end. *)
Lemma finalizedLoop_Ok bs bRoots n : forall fbs,
  (n <= length bs)%nat -> (n <= length bRoots)%nat ->
  exists out, finalizedLoop s ctx bs bRoots n fbs = Ok out.
Proof.
  induction n as [|i IH]; intros fbs Hbs Hroots; [eexists; reflexivity|].
  destruct (lookup_lt_is_Some_2 bs i) as [b Hb]; [lia|].
  destruct (lookup_lt_is_Some_2 bRoots i) as [r Hr]; [lia|].
  simpl. rewrite (index_Some _ _ _ Hb), (index_Some _ _ _ Hr). unfold_result.
  destruct (db.IsFinalizedBlock (beaconDB s) ctx r); apply IH; lia.
Qed.

(** The three outcomes of [loadFinalizedBlocks]. *)
Lemma loadFinalizedBlocks_outcome startSlot endSlot :
  (exists e, loadFinalizedBlocks s ctx startSlot endSlot = Fail (ErrExternal e)) \/
  loadFinalizedBlocks s ctx startSlot endSlot = Fail ErrLengthMismatch \/
  (exists out, loadFinalizedBlocks s ctx startSlot endSlot = Ok out).
Proof.
  unfold loadFinalizedBlocks.
  destruct (db.Blocks (beaconDB s) ctx _) as [[bs bRoots]|e]; simpl.
  - destruct (Nat.eqb_spec (length bs) (length bRoots)) as [Heq|Hne]; simpl.
    + right. right. apply finalizedLoop_Ok; lia.
    + right. left. reflexivity.
  - left. exists e. reflexivity.
Qed.

(** Once the database has answered with as many roots as blocks,
    [loadFinalizedBlocks] returns a segment: nothing else is tested. *)
Lemma loadFinalizedBlocks_answered startSlot endSlot bs bRoots :
  db.Blocks (beaconDB s) ctx
    {| filters.StartSlot := startSlot; filters.EndSlot := endSlot |}
    = inl (bs, bRoots) ->
  length bs = length bRoots ->
  exists out, loadFinalizedBlocks s ctx startSlot endSlot = Ok out.
Proof.
  intros Hdb Hlen. unfold loadFinalizedBlocks. rewrite Hdb. simpl.
  destruct (Nat.eqb_spec (length bs) (length bRoots)); [|contradiction]. simpl.
  apply finalizedLoop_Ok; lia.
Qed.

Lemma walkLoop_cancelled blks roots i filtered e :
  context.Err ctx = Some e ->
  walkLoop ctx blks roots (S i) filtered = Fail (ErrContext e).
Proof. intros Hctx. simpl. unfold checkCtx. rewrite Hctx. reflexivity. Qed.

(** One test of the first loop of [loadBlocks], by cases. *)
Lemma narrowLoop_S blks roots endBlockRoot k :
  narrowLoop ctx blks roots endBlockRoot (S (S (S k))) =
  match blks !! S (S k), blks !! S k with
  | Some b1, Some b2 =>
      if interfaces.Slot b1 =? interfaces.Slot b2
      then
        match roots !! S (S k) with
        | Some r1 =>
            if r1 =? endBlockRoot then Ok (S (S (S k)))
            else
              match context.Err ctx with
              | Some e => Fail (ErrContext e)
              | None =>
                  match roots !! k with
                  | Some r2 =>
                      if r2 =? endBlockRoot then Ok (S k)
                      else narrowLoop ctx blks roots endBlockRoot (S (S k))
                  | None => Panic
                  end
              end
        | None => Panic
        end
      else Ok (S (S (S k)))
  | _, _ => Panic
  end.
Proof.
  cbn [narrowLoop]. unfold_result.
  destruct (blks !! S (S k)); [|reflexivity].
  destruct (blks !! S k); [|reflexivity].
  destruct (_ =? _); [|reflexivity]. cbn [negb].
  destruct (roots !! S (S k)); [|reflexivity].
  destruct (_ =? _); [reflexivity|].
  destruct (context.Err ctx); [reflexivity|].
  destruct (roots !! k); reflexivity.
Qed.

Lemma narrowLoop_cancelled blks roots endBlockRoot k b1 b2 r1 e :
  context.Err ctx = Some e ->
  blks !! S (S k) = Some b1 -> blks !! S k = Some b2 ->
  roots !! S (S k) = Some r1 ->
  interfaces.Slot b1 = interfaces.Slot b2 -> r1 <> endBlockRoot ->
  narrowLoop ctx blks roots endBlockRoot (S (S (S k))) = Fail (ErrContext e).
Proof.
  intros Hctx H1 H2 Hr Hslot Hroot.
  rewrite narrowLoop_S, H1, H2, Hr, Hslot, N.eqb_refl, Hctx.
  destruct (N.eqb_spec r1 endBlockRoot); [contradiction|]. reflexivity.
Qed.

(** Under a cancelled context the first loop returns no window it has
    narrowed. *)
Lemma narrowLoop_cancelled_Ok blks roots endBlockRoot len len' e :
  context.Err ctx = Some e ->
  narrowLoop ctx blks roots endBlockRoot len = Ok len' -> len' = len.
Proof.
  intros Hctx Hr. destruct len as [|[|[|k]]]; try (simpl in Hr; congruence).
  rewrite narrowLoop_S, Hctx in Hr.
  destruct (blks !! S (S k)) as [b1|]; [|discriminate].
  destruct (blks !! S k) as [b2|]; [|discriminate].
  destruct (interfaces.Slot b1 =? interfaces.Slot b2); [|congruence].
  destruct (roots !! S (S k)) as [r1|]; [|discriminate].
  destruct (r1 =? endBlockRoot); [congruence | discriminate].
Qed.

(** Under a cancelled context [loadBlocks] returns no segment from a batch
    of two blocks or more. *)
Lemma loadBlocks_cancelled startSlot endSlot endBlockRoot blks roots e seg :
  context.Err ctx = Some e ->
  db.Blocks (beaconDB s) ctx
    {| filters.StartSlot := startSlot; filters.EndSlot := endSlot |}
    = inl (blks, roots) ->
  (2 <= length blks)%nat ->
  loadBlocks s ctx startSlot endSlot endBlockRoot <> Ok seg.
Proof.
  intros Hctx Hdb Hlen. unfold loadBlocks.
  destruct (endSlot <? startSlot); [discriminate|].
  rewrite Hdb. unfold_result.
  destruct (negb (length blks =? length roots)%nat); [discriminate|].
  destruct (Nat.eqb_spec (length blks) 0); [lia|].
  destruct (narrowLoop ctx blks roots endBlockRoot (length blks)) as [len| |] eqn:Hn;
    try discriminate.
  apply (narrowLoop_cancelled_Ok _ _ _ _ _ e Hctx) in Hn. subst len.
  destruct (roots !! (length blks - 1)%nat) as [r|]; [|discriminate].
  destruct (negb (r =? endBlockRoot)); [discriminate|].
  destruct (blks !! (length blks - 1)%nat) as [b|]; [|discriminate].
  destruct (length blks - 1)%nat as [|i] eqn:Hi; [lia|].
  cbn [walkLoop]. unfold checkCtx. rewrite Hctx. discriminate.
Qed.

(** The first loop leaves a window that is not empty and not longer than
    the batch. *)
Lemma narrowLoop_bounds blks roots endBlockRoot len : forall len',
  narrowLoop ctx blks roots endBlockRoot len = Ok len' ->
  (1 <= len)%nat -> (1 <= len' <= len)%nat.
Proof.
  induction len as [|n IH]; intros len' Hr Hlen; [lia|].
  destruct n as [|[|k]]; try (simpl in Hr; inversion Hr; lia).
  rewrite narrowLoop_S in Hr.
  destruct (blks !! S (S k)) as [b1|]; [|discriminate].
  destruct (blks !! S k) as [b2|]; [|discriminate].
  destruct (interfaces.Slot b1 =? interfaces.Slot b2); [|inversion Hr; lia].
  destruct (roots !! S (S k)) as [r1|]; [|discriminate].
  destruct (r1 =? endBlockRoot); [inversion Hr; lia|].
  destruct (context.Err ctx); [discriminate|].
  destruct (roots !! k) as [r2|]; [|discriminate].
  destruct (r2 =? endBlockRoot); [inversion Hr; lia|].
  apply IH in Hr; lia.
Qed.

(** The first loop does not narrow a batch that ends with the terminal
    root. *)
Lemma narrowLoop_terminal_last blks roots endBlockRoot :
  length blks = length roots ->
  roots !! (length blks - 1)%nat = Some endBlockRoot ->
  narrowLoop ctx blks roots endBlockRoot (length blks) = Ok (length blks).
Proof.
  intros Hlen Hlast. destruct (length blks) as [|[|[|k]]] eqn:Hl; try reflexivity.
  replace (S (S (S k)) - 1)%nat with (S (S k)) in Hlast by lia.
  destruct (lookup_lt_is_Some_2 blks (S (S k))) as [b1 H1]; [lia|].
  destruct (lookup_lt_is_Some_2 blks (S k)) as [b2 H2]; [lia|].
  rewrite narrowLoop_S, H1, H2, Hlast, N.eqb_refl.
  destruct (_ =? _); reflexivity.
Qed.

Lemma lastBlock_snoc pre (b : Block) : lastBlock (pre ++ [b]) = Ok b.
Proof.
  unfold lastBlock. apply index_Some.
  rewrite length_app. simpl.
  replace (length pre + 1 - 1)%nat with (length pre + 0)%nat by lia.
  rewrite lookup_app_r by lia.
  replace (length pre + 0 - length pre)%nat with 0%nat by lia. reflexivity.
Qed.

(** The second loop: from the block [b] at position [cur], with the
    candidates at positions [n] and above already refused, the blocks added
    are the canonical chain below [b]. *)
Lemma walkLoop_canonical blks roots :
  length blks = length roots ->
  context.Err ctx = None ->
  forall n pre cur b,
    (n <= cur)%nat -> (cur < length blks)%nat ->
    blks !! cur = Some b ->
    (forall c, (n <= c < cur)%nat -> roots !! c <> Some (interfaces.ParentRoot b)) ->
    exists idxs seg,
      walkLoop ctx blks roots n (pre ++ [b]) = Ok (pre ++ b :: seg) /\
      Canonical blks roots cur b idxs seg.
Proof.
  intros Hlen Hctx n. induction n as [|i IH]; intros pre cur b Hn Hcur Hb Hskip.
  - exists [], []. split; [reflexivity|].
    constructor. intros c Hc. apply Hskip. lia.
  - destruct (lookup_lt_is_Some_2 roots i) as [r Hr]; [lia|].
    destruct (lookup_lt_is_Some_2 blks i) as [bi Hbi]; [lia|].
    simpl. unfold checkCtx. rewrite Hctx, lastBlock_snoc.
    rewrite (index_Some _ _ _ Hr), (index_Some _ _ _ Hbi). unfold_result.
    destruct (N.eqb_spec (interfaces.ParentRoot b) r) as [Heq|Hne]; simpl.
    + destruct (IH (pre ++ [b]) i bi) as (idxs & seg & Hwalk & Hcanon);
        [lia | lia | exact Hbi | intros c Hc; lia |].
      exists (i :: idxs), (bi :: seg). rewrite Hwalk, <- app_assoc.
      split; [reflexivity|].
      constructor; [lia | exact Hbi | congruence | | exact Hcanon].
      intros c Hc. apply Hskip. lia.
    + apply IH; [lia | lia | exact Hb |].
      intros c Hc. destruct (decide (c = i)) as [->|Hci].
      * rewrite Hr. congruence.
      * apply Hskip. lia.
Qed.
End LoadFacts.

(** What [loadBlocks] gives on the batch with forks. *)
Example loadBlocks_forked :
  loadBlocks (Scenario.fixedDB Scenario.forkedBlocks Scenario.forkedRoots)
    Scenario.live 1 4 6
  = Ok [Scenario.blockWith 4 4 6; Scenario.blockWith 3 2 4;
        Scenario.blockWith 2 1 2; Scenario.blockWith 1 0 1].
Proof. vm_compute. reflexivity. Qed.





(** C2.  On a batch of exactly two blocks of the same slot whose older one
    has the terminal root, the narrowing rule of the specification finds the
    terminal root, and [loadBlocks] fails: its first loop needs three entries
    to start.  On a batch where the terminal root sits at an older slot under
    two blocks of the same slot, the rule does not find it, and [loadBlocks]
    succeeds. *)
Theorem loadBlocks_two_same_slot_blocks :
  (NarrowSpec.terminalFound Scenario.twinBlocks Scenario.twinRoots 11 = true /\
   loadBlocks (Scenario.fixedDB Scenario.twinBlocks Scenario.twinRoots)
     Scenario.live 5 5 11 = Fail ErrEndRootsMismatch) /\
  (NarrowSpec.terminalFound Scenario.staleBlocks Scenario.staleRoots 21 = false /\
   loadBlocks (Scenario.fixedDB Scenario.staleBlocks Scenario.staleRoots)
     Scenario.live 4 5 21 = Ok [Scenario.blockWith 4 1 21]).
Proof. repeat split; vm_compute; reflexivity. Qed.

(** C8, as the code has it.  On a range whose start is after its end,
    [loadBlocks] fails with the range error whatever the database is;
    [loadFinalizedBlocks] has no test of the range: it hands the range to the
    database, returns the error of the database if there is one, and returns
    a segment if the database answers with as many roots as blocks. *)
Theorem loaders_invalid_range (s : State) (ctx : context.Context)
    (startSlot endSlot : primitives.Slot) :
  endSlot < startSlot ->
  (forall (s' : State) endBlockRoot,
     loadBlocks s' ctx startSlot endSlot endBlockRoot
     = Fail (ErrInvalidRange startSlot endSlot)) /\
  (forall e,
     db.Blocks (beaconDB s) ctx
       {| filters.StartSlot := startSlot; filters.EndSlot := endSlot |} = inr e ->
     loadFinalizedBlocks s ctx startSlot endSlot = Fail (ErrExternal e)) /\
  (forall bs bRoots,
     db.Blocks (beaconDB s) ctx
       {| filters.StartSlot := startSlot; filters.EndSlot := endSlot |}
       = inl (bs, bRoots) ->
     length bs = length bRoots ->
     exists out, loadFinalizedBlocks s ctx startSlot endSlot = Ok out).
Proof.
  intros Hrange. split; [|split].
  - intros s' endBlockRoot. unfold loadBlocks.
    destruct (N.ltb_spec endSlot startSlot); [reflexivity | lia].
  - intros e Hdb. unfold loadFinalizedBlocks. rewrite Hdb. reflexivity.
  - apply loadFinalizedBlocks_answered.
Qed.

Lemma loaders_invalid_range_witness :
  loadBlocks (Scenario.fixedDB Scenario.chainBlocks Scenario.chainRoots)
    Scenario.live 5 3 3 = Fail (ErrInvalidRange 5 3).
Proof.
  apply (loaders_invalid_range
           (Scenario.fixedDB Scenario.chainBlocks Scenario.chainRoots)
           Scenario.live 5 3).
  lia.
Defined.

(** C8, as the claim has it, fails: [loadFinalizedBlocks] asks the database
    for a range whose start is after its end and returns what it is given. *)
Lemma loadFinalizedBlocks_inverted_range :
  3 < 5 /\
  loadFinalizedBlocks (Scenario.fixedDB Scenario.chainBlocks Scenario.chainRoots)
    Scenario.live 5 3
  = Ok [Scenario.blockWith 3 2 3; Scenario.blockWith 2 1 2; Scenario.blockWith 1 0 1] /\
  ~ (exists a b,
       loadFinalizedBlocks (Scenario.fixedDB Scenario.chainBlocks Scenario.chainRoots)
         Scenario.live 5 3 = Fail (ErrInvalidRange a b)).
Proof.
  split; [lia|]. split; [vm_compute; reflexivity|].
  intros (a & b & Hr). vm_compute in Hr. discriminate.
Qed.

(** C9, as the code has it.  Under a cancelled context every iteration of
    the loop of [replayBlocks] and of the two loops of [loadBlocks] ends the
    call with the error of the context, and no state or segment comes back;
    [loadFinalizedBlocks] does not read the context in its loop: once the
    database has answered, it returns a segment. *)
Theorem cancellation_at_loop_heads (ctx : context.Context) (e : ctxError) :
  context.Err ctx = Some e ->
  (forall (St : Type) (B : state.BeaconState St) (T : transition.Primitives St)
          signed t i (s : St),
     replayLoop T ctx signed t (S i) s = Fail (ErrContext e)) /\
  (forall (St : Type) (B : state.BeaconState St) (T : transition.Primitives St)
          signed t (s : St),
     signed <> [] -> replayBlocks T ctx (Some s) signed t = Fail (ErrContext e)) /\
  (forall blks roots i filtered,
     walkLoop ctx blks roots (S i) filtered = Fail (ErrContext e)) /\
  (forall blks roots endBlockRoot k b1 b2 r1,
     blks !! S (S k) = Some b1 -> blks !! S k = Some b2 ->
     roots !! S (S k) = Some r1 ->
     interfaces.Slot b1 = interfaces.Slot b2 -> r1 <> endBlockRoot ->
     narrowLoop ctx blks roots endBlockRoot (S (S (S k))) = Fail (ErrContext e)) /\
  (forall (s : State) startSlot endSlot endBlockRoot blks roots seg,
     db.Blocks (beaconDB s) ctx
       {| filters.StartSlot := startSlot; filters.EndSlot := endSlot |}
       = inl (blks, roots) ->
     (2 <= length blks)%nat ->
     loadBlocks s ctx startSlot endSlot endBlockRoot <> Ok seg) /\
  (forall (s : State) startSlot endSlot bs bRoots,
     db.Blocks (beaconDB s) ctx
       {| filters.StartSlot := startSlot; filters.EndSlot := endSlot |}
       = inl (bs, bRoots) ->
     length bs = length bRoots ->
     exists out, loadFinalizedBlocks s ctx startSlot endSlot = Ok out).
Proof.
  intros Hctx. split; [|split; [|split; [|split; [|split]]]].
  - intros St B T signed t i s. apply replayLoop_cancelled, Hctx.
  - intros St B T signed t s Hne. rewrite replayBlocks_Some.
    destruct signed as [|b l]; [congruence|]. cbn [length].
    rewrite (replayLoop_cancelled T ctx _ _ _ _ e Hctx). reflexivity.
  - intros blks roots i filtered. apply walkLoop_cancelled, Hctx.
  - intros blks roots endBlockRoot k b1 b2 r1. apply narrowLoop_cancelled, Hctx.
  - intros s startSlot endSlot endBlockRoot blks roots seg Hdb Hlen.
    eapply loadBlocks_cancelled; eassumption.
  - intros s startSlot endSlot bs bRoots. apply loadFinalizedBlocks_answered.
Qed.

Lemma cancellation_at_loop_heads_witness :
  replayBlocks Scenario.tracing Scenario.cancelled (Some (Scenario.stateAt 10))
    [Scenario.block 15 2; Scenario.block 12 1] 20 = Fail (ErrContext Canceled).
Proof.
  destruct (cancellation_at_loop_heads Scenario.cancelled Canceled eq_refl)
    as (_ & Hreplay & _).
  apply Hreplay. discriminate.
Defined.

(** C9, as the claim has it, fails: under a cancelled context
    [loadFinalizedBlocks] goes through its loop and returns the blocks. *)
Lemma loadFinalizedBlocks_cancelled :
  context.Err Scenario.cancelled = Some Canceled /\
  loadFinalizedBlocks (Scenario.fixedDB Scenario.chainBlocks Scenario.chainRoots)
    Scenario.cancelled 1 3
  = Ok [Scenario.blockWith 3 2 3; Scenario.blockWith 2 1 2; Scenario.blockWith 1 0 1] /\
  loadFinalizedBlocks (Scenario.fixedDB Scenario.chainBlocks Scenario.chainRoots)
    Scenario.cancelled 1 3 <> Fail (ErrContext Canceled).
Proof.
  split; [reflexivity|]. split; [vm_compute; reflexivity|].
  vm_compute. discriminate.
Qed.

(** * Further properties of the replay *)

Section ReplaySafety.
Context {St : Type} `{!state.BeaconState St} (T : transition.Primitives St).

Lemma ReplayProcessSlots_no_panic ctx (st : option St) t :
  ReplayProcessSlots T ctx st t <> Panic.
Proof.
  unfold ReplayProcessSlots. destruct st as [s|]; [|discriminate].
  destruct (state.IsNil s); [discriminate|].
  destruct (t <? state.Slot s); [discriminate|].
  destruct (state.Slot s =? t); [discriminate|].
  destruct (transition.ProcessSlotsCore T ctx s t); discriminate.
Qed.

Lemma executeStateTransitionStateGen_no_panic ctx (s : St) b :
  executeStateTransitionStateGen T ctx s b <> Panic.
Proof.
  unfold executeStateTransitionStateGen, checkCtx, blocks.BeaconBlockIsNil.
  destruct (context.Err ctx); [discriminate|].
  destruct (interfaces.IsNil b); [discriminate|].
  pose proof (ReplayProcessSlots_no_panic ctx (Some s) (interfaces.Slot b)) as Hrps.
  destruct (ReplayProcessSlots T ctx (Some s) (interfaces.Slot b)) as [s1| |];
    [|discriminate|contradiction].
  unfold_result.
  destruct (transition.ProcessBlockForStateRoot T ctx s1 b); discriminate.
Qed.

Lemma replayLoop_no_panic ctx signed t n : forall s : St,
  (n <= length signed)%nat -> replayLoop T ctx signed t n s <> Panic.
Proof.
  induction n as [|i IH]; intros s Hn; [discriminate|].
  rewrite replayLoop_S.
  destruct (context.Err ctx); [discriminate|].
  destruct (t <=? state.Slot s); [discriminate|].
  destruct (lookup_lt_is_Some_2 signed i) as [b Hb]; [lia|]. rewrite Hb.
  destruct (interfaces.Slot b <=? state.Slot s); [apply IH; lia|].
  pose proof (executeStateTransitionStateGen_no_panic ctx s b) as Hex.
  destruct (executeStateTransitionStateGen T ctx s b); [apply IH; lia|discriminate|contradiction].
Qed.

(** A failure of [ReplayProcessSlots] on a target at or after the slot of
    the state is not the regression error. *)
Lemma ReplayProcessSlots_forward_Fail ctx (s : St) t e :
  state.Slot s <= t ->
  ReplayProcessSlots T ctx (Some s) t = Fail e -> isSlotRegression e = false.
Proof.
  intros Hle. unfold ReplayProcessSlots.
  destruct (state.IsNil s); [intros Hr; inversion Hr; reflexivity|].
  destruct (N.ltb_spec t (state.Slot s)); [lia|].
  destruct (state.Slot s =? t); [discriminate|].
  destruct (transition.ProcessSlotsCore T ctx s t); simpl; intros Hr;
    inversion Hr; reflexivity.
Qed.

Lemma executeStateTransitionStateGen_forward_Fail ctx (s : St) b e :
  state.Slot s <= interfaces.Slot b ->
  executeStateTransitionStateGen T ctx s b = Fail e -> isSlotRegression e = false.
Proof.
  intros Hle.
  unfold executeStateTransitionStateGen, checkCtx, blocks.BeaconBlockIsNil.
  destruct (context.Err ctx); [intros Hr; inversion Hr; reflexivity|].
  destruct (interfaces.IsNil b); [intros Hr; inversion Hr; reflexivity|].
  destruct (ReplayProcessSlots T ctx (Some s) (interfaces.Slot b)) as [s1|c|] eqn:Hrps;
    unfold_result.
  - destruct (transition.ProcessBlockForStateRoot T ctx s1 b);
      intros Hr; inversion Hr; reflexivity.
  - intros Hr. inversion Hr. simpl.
    eapply ReplayProcessSlots_forward_Fail; eassumption.
  - discriminate.
Qed.

Lemma replayLoop_Fail_not_regression ctx signed t n : forall (s : St) e,
  replayLoop T ctx signed t n s = Fail e -> isSlotRegression e = false.
Proof.
  induction n as [|i IH]; intros s e; [discriminate|].
  rewrite replayLoop_S.
  destruct (context.Err ctx); [intros Hr; inversion Hr; reflexivity|].
  destruct (t <=? state.Slot s); [discriminate|].
  destruct (signed !! i) as [b|]; [|discriminate].
  destruct (N.leb_spec (interfaces.Slot b) (state.Slot s)); [apply IH|].
  destruct (executeStateTransitionStateGen T ctx s b) as [s1|c|] eqn:Hex.
  - apply IH.
  - intros Hr. inversion Hr. subst c.
    eapply executeStateTransitionStateGen_forward_Fail; [|exact Hex]. lia.
  - discriminate.
Qed.

(** The state the loop returns comes from applying, in their order, the
    blocks the loop has logged. *)
Lemma replayLoopLog_applyAll ctx signed t n : forall (s : St) log,
  exists applied,
    fst (replayLoopLog T ctx signed t n s log) = log ++ applied /\
    forall s', snd (replayLoopLog T ctx signed t n s log) = Ok s' ->
               applyAll T ctx s applied = Ok s'.
Proof.
  induction n as [|i IH]; intros s log.
  - exists []. rewrite app_nil_r. split; [reflexivity|]. intros s' Hr. exact Hr.
  - simpl.
    destruct (context.Err ctx).
    { exists []. rewrite app_nil_r. split; [reflexivity | discriminate]. }
    destruct (t <=? state.Slot s).
    { exists []. rewrite app_nil_r. split; [reflexivity|]. intros s' Hr. exact Hr. }
    destruct (signed !! i) as [b|].
    2:{ exists []. rewrite app_nil_r. split; [reflexivity | discriminate]. }
    destruct (interfaces.Slot b <=? state.Slot s); [apply IH|].
    destruct (executeStateTransitionStateGen T ctx s b) as [s1| |] eqn:Hex.
    + destruct (IH s1 (log ++ [b])) as (applied & Hfst & Hsnd).
      exists (b :: applied). rewrite Hfst, <- app_assoc.
      split; [reflexivity|]. intros s' Hr. simpl. rewrite Hex. auto.
    + exists [b]. split; [reflexivity | discriminate].
    + exists [b]. split; [reflexivity | discriminate].
Qed.
End ReplaySafety.

(** X1. With a state that is not the nil interface and a segment that
    holds no nil block, [replayBlocks] does not panic: every [signed[i]] its
    loop reads is in range. *)
Theorem replayBlocks_never_panics {St : Type} `{!state.BeaconState St}
    (T : transition.Primitives St) (ctx : context.Context) (s : St)
    (signed : list Block) (targetSlot : primitives.Slot) :
  Forall (fun b => interfaces.IsNil b = false) signed ->
  replayBlocks T ctx (Some s) signed targetSlot <> Panic.
Proof.
  intros _. rewrite replayBlocks_Some.
  pose proof (replayLoop_no_panic T ctx signed targetSlot (length signed) s) as Hloop.
  destruct (replayLoop T ctx signed targetSlot (length signed) s) as [s1| |];
    [|discriminate|apply Hloop; lia].
  destruct (state.Slot s1 <? targetSlot); [|discriminate].
  apply ReplayProcessSlots_no_panic.
Qed.

Lemma replayBlocks_never_panics_witness :
  replayBlocks Scenario.tracing Scenario.live (Some (Scenario.stateAt 10))
    [Scenario.block 15 2; Scenario.block 12 1] 20 <> Panic.
Proof.
  apply replayBlocks_never_panics. repeat constructor.
Defined.

(** X2. [replayBlocks] never fails with the slot-regression error, bare or
    wrapped: a block is applied only above the slot of the state and the
    trailing advance runs only below the target, so [ReplayProcessSlots] is
    never asked to go back. *)
Theorem replayBlocks_never_slot_regression {St : Type} `{!state.BeaconState St}
    (T : transition.Primitives St) (ctx : context.Context) (s : St)
    (signed : list Block) (targetSlot : primitives.Slot) (e : error) :
  replayBlocks T ctx (Some s) signed targetSlot = Fail e ->
  isSlotRegression e = false.
Proof.
  rewrite replayBlocks_Some.
  destruct (replayLoop T ctx signed targetSlot (length signed) s) as [s1|c|] eqn:Hloop.
  - destruct (N.ltb_spec (state.Slot s1) targetSlot); [|discriminate].
    apply ReplayProcessSlots_forward_Fail. lia.
  - intros Hr. inversion Hr. subst c.
    eapply replayLoop_Fail_not_regression, Hloop.
  - discriminate.
Qed.

Lemma replayBlocks_never_slot_regression_witness :
  replayBlocks Scenario.tracing Scenario.cancelled (Some (Scenario.stateAt 10))
    [Scenario.block 12 1] 20 = Fail (ErrContext Canceled) /\
  isSlotRegression (ErrContext Canceled) = false.
Proof.
  split; [vm_compute; reflexivity|].
  apply (replayBlocks_never_slot_regression Scenario.tracing Scenario.cancelled
           (Scenario.stateAt 10) [Scenario.block 12 1] 20).
  vm_compute. reflexivity.
Defined.

(** X3. When the context is not cancelled and the state is already at or
    after the target, [replayBlocks] returns the input state as it is,
    whatever the segment holds and whatever the transition functions are. *)
Theorem replayBlocks_target_already_reached {St : Type} `{!state.BeaconState St}
    (T : transition.Primitives St) (ctx : context.Context) (s : St)
    (signed : list Block) (targetSlot : primitives.Slot) :
  context.Err ctx = None ->
  targetSlot <= state.Slot s ->
  replayBlocks T ctx (Some s) signed targetSlot = Ok s.
Proof.
  intros Hctx Ht. rewrite replayBlocks_Some.
  rewrite (replayLoop_target_reached T ctx signed targetSlot _ s Hctx Ht).
  destruct (N.ltb_spec (state.Slot s) targetSlot); [lia | reflexivity].
Qed.

Lemma replayBlocks_target_already_reached_witness :
  replayBlocks Scenario.tracing Scenario.live (Some (Scenario.stateAt 16))
    [Scenario.block 15 2; Scenario.block 12 1] 16 = Ok (Scenario.stateAt 16).
Proof.
  apply replayBlocks_target_already_reached.
  - reflexivity.
  - simpl. lia.
Defined.

(** X4. When the loop of [replayBlocks] returns a state, that state is the
    one obtained by applying [executeStateTransitionStateGen] to the blocks
    of its log, in the order of the log, starting from the input state. *)
Theorem replayLoop_applies_its_log {St : Type} `{!state.BeaconState St}
    (T : transition.Primitives St) (ctx : context.Context) (s s' : St)
    (signed : list Block) (targetSlot : primitives.Slot) :
  replayLoop T ctx signed targetSlot (length signed) s = Ok s' ->
  applyAll T ctx s (fst (replayLoopLog T ctx signed targetSlot (length signed) s []))
  = Ok s'.
Proof.
  intros Hr.
  destruct (replayLoopLog_applyAll T ctx signed targetSlot (length signed) s [])
    as (applied & Hfst & Hsnd).
  rewrite Hfst. simpl. apply Hsnd. rewrite replayLoopLog_snd. exact Hr.
Qed.

Lemma replayLoop_applies_its_log_witness :
  applyAll Scenario.tracing Scenario.live (Scenario.stateAt 10)
    (fst (replayLoopLog Scenario.tracing Scenario.live
            [Scenario.block 15 2; Scenario.block 12 1; Scenario.block 9 0] 13 3
            (Scenario.stateAt 10) []))
  = Ok {| Scenario.slot := 15; Scenario.isNil := false;
          Scenario.history :=
            [Scenario.Advanced 10 12; Scenario.Applied 12;
             Scenario.Advanced 12 15; Scenario.Applied 15] |}.
Proof.
  apply (replayLoop_applies_its_log Scenario.tracing Scenario.live
           (Scenario.stateAt 10) _
           [Scenario.block 15 2; Scenario.block 12 1; Scenario.block 9 0] 13).
  vm_compute. reflexivity.
Defined.

Section ExactTarget.
Context {St : Type} `{!state.BeaconState St} (T : transition.Primitives St).

Hypothesis slots_reach : forall ctx (s s' : St) t,
  transition.ProcessSlotsCore T ctx s t = inl s' -> state.Slot s' = t.
Hypothesis block_keeps : forall ctx (s s' : St) b,
  transition.ProcessBlockForStateRoot T ctx s b = inl s' ->
  state.Slot s' = state.Slot s.

End ExactTarget.



(** * Further properties of the loaders *)

Lemma sublist_of_reverse {A : Type} (l k : list A) :
  l `sublist_of` k -> reverse l `sublist_of` reverse k.
Proof.
  induction 1 as [|x l1 l2 _ IH|x l1 l2 _ IH].
  - constructor.
  - rewrite !reverse_cons. apply sublist_app; [exact IH | reflexivity].
  - rewrite reverse_cons. apply sublist_inserts_r, IH.
Qed.

Lemma sublist_of_filter {A : Type} (f : A -> bool) (l : list A) :
  List.filter f l `sublist_of` l.
Proof.
  induction l as [|x l IH]; [constructor|]. simpl.
  destruct (f x); [apply sublist_skip, IH | apply sublist_cons, IH].
Qed.

Lemma reverse_take_S {A : Type} (l : list A) (i : nat) (x : A) :
  l !! i = Some x -> reverse (take (S i) l) = x :: reverse (take i l).
Proof. intros Hx. rewrite (take_S_r _ _ _ Hx). apply reverse_snoc. Qed.

Section LoadMore.
Variable s : State.
Variable ctx : context.Context.

(** *** [loadFinalizedBlocks] *)

Lemma finalizedOf_snoc bs bRoots (b : Block) (r : N) :
  length bs = length bRoots ->
  finalizedOf s ctx (bs ++ [b]) (bRoots ++ [r])
  = (if db.IsFinalizedBlock (beaconDB s) ctx r then [b] else [])
    ++ finalizedOf s ctx bs bRoots.
Proof.
  intros Hlen. unfold finalizedOf.
  rewrite zip_with_app by exact Hlen.
  rewrite List.filter_app, fmap_app, reverse_app. simpl.
  destruct (db.IsFinalizedBlock (beaconDB s) ctx r); reflexivity.
Qed.

Lemma finalizedLoop_finalizedOf bs bRoots n : forall fbs,
  (n <= length bs)%nat -> (n <= length bRoots)%nat ->
  finalizedLoop s ctx bs bRoots n fbs
  = Ok (fbs ++ finalizedOf s ctx (take n bs) (take n bRoots)).
Proof.
  induction n as [|i IH]; intros fbs Hbs Hroots.
  - rewrite !take_0. unfold finalizedOf. simpl. rewrite app_nil_r. reflexivity.
  - destruct (lookup_lt_is_Some_2 bs i) as [b Hb]; [lia|].
    destruct (lookup_lt_is_Some_2 bRoots i) as [r Hr]; [lia|].
    rewrite (take_S_r _ _ _ Hb), (take_S_r _ _ _ Hr).
    rewrite finalizedOf_snoc by (rewrite !length_take; lia).
    cbn [finalizedLoop].
    rewrite (index_Some _ _ _ Hb), (index_Some _ _ _ Hr). unfold_result.
    destruct (db.IsFinalizedBlock (beaconDB s) ctx r).
    + rewrite IH by lia. rewrite <- app_assoc. reflexivity.
    + rewrite IH by lia. reflexivity.
Qed.

Lemma finalizedOf_sublist bs bRoots :
  length bs = length bRoots ->
  finalizedOf s ctx bs bRoots `sublist_of` reverse bs.
Proof.
  intros Hlen. unfold finalizedOf. apply sublist_of_reverse.
  rewrite <- (fst_zip bs bRoots) at 2 by lia.
  apply fmap_sublist, sublist_of_filter.
Qed.

(** *** [loadBlocks] *)

Lemma narrowLoop_Fail_inv blks roots endBlockRoot len : forall e,
  narrowLoop ctx blks roots endBlockRoot len = Fail e ->
  exists c, context.Err ctx = Some c /\ e = ErrContext c.
Proof.
  induction len as [|n IH]; intros e Hr; [discriminate|].
  destruct n as [|[|k]]; try discriminate.
  rewrite narrowLoop_S in Hr.
  destruct (blks !! S (S k)) as [b1|]; [|discriminate].
  destruct (blks !! S k) as [b2|]; [|discriminate].
  destruct (interfaces.Slot b1 =? interfaces.Slot b2); [|discriminate].
  destruct (roots !! S (S k)) as [r1|]; [|discriminate].
  destruct (r1 =? endBlockRoot); [discriminate|].
  destruct (context.Err ctx) as [c|]; [inversion Hr; eauto|].
  destruct (roots !! k) as [r2|]; [|discriminate].
  destruct (r2 =? endBlockRoot); [discriminate|].
  apply IH, Hr.
Qed.

Lemma narrowLoop_no_panic blks roots endBlockRoot len :
  length blks = length roots -> (len <= length blks)%nat ->
  narrowLoop ctx blks roots endBlockRoot len <> Panic.
Proof.
  intros Hlen. induction len as [|n IH]; intros Hn; [discriminate|].
  destruct n as [|[|k]]; try discriminate.
  rewrite narrowLoop_S.
  destruct (lookup_lt_is_Some_2 blks (S (S k))) as [b1 ->]; [lia|].
  destruct (lookup_lt_is_Some_2 blks (S k)) as [b2 ->]; [lia|].
  destruct (interfaces.Slot b1 =? interfaces.Slot b2); [|discriminate].
  destruct (lookup_lt_is_Some_2 roots (S (S k))) as [r1 ->]; [lia|].
  destruct (r1 =? endBlockRoot); [discriminate|].
  destruct (context.Err ctx); [discriminate|].
  destruct (lookup_lt_is_Some_2 roots k) as [r2 ->]; [lia|].
  destruct (r2 =? endBlockRoot); [discriminate|].
  apply IH. lia.
Qed.

(** The blocks the first loop drops all have the slot of the last block of
    the window it started from. *)
Lemma narrowLoop_same_slot blks roots endBlockRoot len : forall len',
  narrowLoop ctx blks roots endBlockRoot len = Ok len' ->
  forall i b newest,
    (len' <= i < len)%nat -> blks !! i = Some b ->
    blks !! (len - 1)%nat = Some newest ->
    interfaces.Slot b = interfaces.Slot newest.
Proof.
  induction len as [|n IH]; intros len' Hr i b newest Hi Hb Hnewest; [lia|].
  destruct n as [|[|k]]; try (simpl in Hr; inversion Hr; lia).
  replace (S (S (S k)) - 1)%nat with (S (S k)) in Hnewest by lia.
  rewrite narrowLoop_S, Hnewest in Hr.
  destruct (blks !! S k) as [b2|] eqn:H2; [|discriminate].
  destruct (N.eqb_spec (interfaces.Slot newest) (interfaces.Slot b2)) as [Hslot|];
    [|inversion Hr; lia].
  destruct (roots !! S (S k)) as [r1|]; [|discriminate].
  destruct (r1 =? endBlockRoot); [inversion Hr; lia|].
  destruct (context.Err ctx); [discriminate|].
  destruct (roots !! k) as [r2|]; [|discriminate].
  destruct (r2 =? endBlockRoot).
  - inversion Hr. subst len'.
    destruct (decide (i = S (S k))) as [->|Hne]; [congruence|].
    assert (i = S k) as -> by lia. congruence.
  - destruct (decide (i = S (S k))) as [->|Hne]; [congruence|].
    rewrite Hslot. eapply (IH len' Hr i b b2); [lia | exact Hb |].
    replace (S (S k) - 1)%nat with (S k) by lia. exact H2.
Qed.

Lemma index_no_panic {A : Type} (l : list A) (i : nat) :
  (i < length l)%nat -> exists a, l !! i = Some a /\ index l i = Ok a.
Proof.
  intros Hi. destruct (lookup_lt_is_Some_2 l i Hi) as [a Ha].
  exists a. split; [exact Ha | apply index_Some, Ha].
Qed.

Lemma walkLoop_no_panic blks roots n : forall filtered,
  length blks = length roots -> (n <= length blks)%nat -> filtered <> [] ->
  walkLoop ctx blks roots n filtered <> Panic.
Proof.
  induction n as [|i IH]; intros filtered Hlen Hn Hne; [discriminate|].
  cbn [walkLoop]. unfold checkCtx.
  destruct (context.Err ctx); [discriminate|].
  destruct (index_no_panic filtered (length filtered - 1)) as (b & _ & Hb).
  { destruct filtered; [congruence | simpl; lia]. }
  unfold lastBlock. rewrite Hb.
  destruct (index_no_panic roots i) as (r & _ & Hr); [lia|].
  destruct (index_no_panic blks i) as (bi & _ & Hbi); [lia|].
  rewrite Hr, Hbi. unfold_result.
  destruct (negb (interfaces.ParentRoot b =? r)).
  - apply IH; [assumption | lia | assumption].
  - apply IH; [assumption | lia |]. destruct filtered; discriminate.
Qed.

(** What the second loop adds is taken, in order, from the candidates read
    newest first. *)
Lemma walkLoop_sublist blks roots n : forall filtered out,
  (n <= length blks)%nat ->
  walkLoop ctx blks roots n filtered = Ok out ->
  exists added, out = filtered ++ added /\
                added `sublist_of` reverse (take n blks).
Proof.
  induction n as [|i IH]; intros filtered out Hn.
  - simpl. intros Hr. inversion Hr. exists []. rewrite app_nil_r.
    split; [reflexivity | constructor].
  - cbn [walkLoop]. unfold checkCtx.
    destruct (context.Err ctx); [discriminate|].
    destruct (lastBlock filtered) as [b| |]; try discriminate.
    destruct (index roots i) as [r| |]; try discriminate.
    destruct (lookup_lt_is_Some_2 blks i) as [bi Hbi]; [lia|].
    rewrite (index_Some _ _ _ Hbi), (reverse_take_S _ _ _ Hbi). unfold_result.
    destruct (negb (interfaces.ParentRoot b =? r)); intros Hr.
    + destruct (IH filtered out) as (added & -> & Hsub); [lia | exact Hr |].
      exists added. split; [reflexivity | apply sublist_cons, Hsub].
    + destruct (IH (filtered ++ [bi]) out) as (added & -> & Hsub); [lia | exact Hr |].
      exists (bi :: added). rewrite <- app_assoc.
      split; [reflexivity | apply sublist_skip, Hsub].
Qed.

(** On a batch without forks the second loop takes every candidate. *)
Lemma walkLoop_chain blks roots :
  context.Err ctx = None ->
  length blks = length roots ->
  (forall i b, blks !! S i = Some b -> roots !! i = Some (interfaces.ParentRoot b)) ->
  forall n pre b,
    blks !! n = Some b ->
    walkLoop ctx blks roots n (pre ++ [b]) = Ok (pre ++ reverse (take (S n) blks)).
Proof.
  intros Hctx Hlen Hchain n. induction n as [|i IH]; intros pre b Hb.
  - rewrite (reverse_take_S _ _ _ Hb), take_0. reflexivity.
  - rewrite (reverse_take_S _ _ _ Hb).
    assert (i < length blks)%nat as Hi by (apply lookup_lt_Some in Hb; lia).
    destruct (lookup_lt_is_Some_2 blks i Hi) as [bi Hbi].
    cbn [walkLoop]. unfold checkCtx.
    rewrite Hctx, lastBlock_snoc, (index_Some _ _ _ (Hchain i b Hb)),
      (index_Some _ _ _ Hbi). unfold_result.
    rewrite N.eqb_refl. simpl.
    rewrite (IH (pre ++ [b]) bi Hbi), <- app_assoc. reflexivity.
Qed.
End LoadMore.

Section LoadResults.
Variable s : State.
Variable ctx : context.Context.

Lemma finalizedOf_elem_of bs bRoots (b : Block) :
  b ∈ finalizedOf s ctx bs bRoots <->
  exists i r, bs !! i = Some b /\ bRoots !! i = Some r /\
              db.IsFinalizedBlock (beaconDB s) ctx r = true.
Proof.
  unfold finalizedOf. rewrite elem_of_reverse, list_elem_of_fmap. split.
  - intros ([b' r] & -> & Hin).
    apply list_elem_of_In, List.filter_In in Hin as [Hin Hfin].
    apply list_elem_of_In, elem_of_lookup_zip_with in Hin
      as (i & x & y & Heq & Hx & Hy).
    inversion Heq; subst. exists i, y. auto.
  - intros (i & r & Hb & Hr & Hfin). exists (b, r). split; [reflexivity|].
    apply list_elem_of_In, List.filter_In. split; [|exact Hfin].
    apply list_elem_of_In, elem_of_lookup_zip_with. exists i, b, r. auto.
Qed.

Lemma walkLoop_Ok_canonical blks roots n pre cur b out :
  length blks = length roots ->
  (n <= cur)%nat -> (cur < length blks)%nat ->
  blks !! cur = Some b ->
  (forall c, (n <= c < cur)%nat -> roots !! c <> Some (interfaces.ParentRoot b)) ->
  walkLoop ctx blks roots n (pre ++ [b]) = Ok out ->
  exists idxs seg, out = pre ++ b :: seg /\ Canonical blks roots cur b idxs seg.
Proof.
  intros Hlen Hn Hcur Hb Hskip Hr. destruct n as [|i].
  - simpl in Hr. inversion Hr. exists [], []. split; [reflexivity|].
    constructor. intros c Hc. apply Hskip. lia.
  - destruct (context.Err ctx) as [e|] eqn:Hctx.
    { rewrite (walkLoop_cancelled ctx _ _ _ _ e Hctx) in Hr. discriminate. }
    destruct (walkLoop_canonical ctx blks roots Hlen Hctx (S i) pre cur b)
      as (idxs & seg & Hwalk & Hcanon); [assumption..|].
    rewrite Hwalk in Hr. inversion Hr. eauto.
Qed.

(** [loadBlocks], once the database has answered and the counts agree, by
    cases on the window the first loop leaves. *)
Lemma loadBlocks_answered startSlot endSlot endBlockRoot blks roots :
  startSlot <= endSlot ->
  db.Blocks (beaconDB s) ctx
    {| filters.StartSlot := startSlot; filters.EndSlot := endSlot |}
    = inl (blks, roots) ->
  length blks = length roots -> blks <> [] ->
  loadBlocks s ctx startSlot endSlot endBlockRoot =
  match narrowLoop ctx blks roots endBlockRoot (length blks) with
  | Ok len =>
      match roots !! (len - 1)%nat, blks !! (len - 1)%nat with
      | Some r, Some b =>
          if r =? endBlockRoot then walkLoop ctx blks roots (len - 1) [b]
          else Fail ErrEndRootsMismatch
      | _, _ => Panic
      end
  | Fail e => Fail e
  | Panic => Panic
  end.
Proof.
  intros Hrange Hdb Hlen Hne. unfold loadBlocks.
  destruct (N.ltb_spec endSlot startSlot); [lia|].
  rewrite Hdb. unfold_result.
  destruct (Nat.eqb_spec (length blks) (length roots)); [|contradiction].
  destruct (Nat.eqb_spec (length blks) 0) as [H0|_].
  { destruct blks; [congruence | discriminate]. }
  simpl.
  destruct (narrowLoop ctx blks roots endBlockRoot (length blks)) as [len| |] eqn:Hn;
    try reflexivity.
  assert (1 <= length blks)%nat as Hpos by (destruct blks; [congruence | simpl; lia]).
  pose proof (narrowLoop_bounds ctx _ _ _ _ _ Hn Hpos) as Hb.
  destruct (lookup_lt_is_Some_2 roots (len - 1)) as [r ->]; [lia|].
  destruct (lookup_lt_is_Some_2 blks (len - 1)) as [b ->]; [lia|].
  destruct (r =? endBlockRoot); reflexivity.
Qed.
End LoadResults.

(** X6. Once the database has answered with as many roots as blocks,
    [loadFinalizedBlocks] returns the blocks of the batch whose roots the
    database holds finalized, and only those, in the reverse of the order of
    the batch; on a batch of ascending slots the result has slots that never
    go up. *)
Theorem loadFinalizedBlocks_finalized_only (s : State) (ctx : context.Context)
    (startSlot endSlot : primitives.Slot) (bs : list Block) (bRoots : list N) :
  db.Blocks (beaconDB s) ctx
    {| filters.StartSlot := startSlot; filters.EndSlot := endSlot |}
    = inl (bs, bRoots) ->
  length bs = length bRoots ->
  exists out,
    loadFinalizedBlocks s ctx startSlot endSlot = Ok out /\
    out = finalizedOf s ctx bs bRoots /\
    (forall b, b ∈ out <->
       exists i r, bs !! i = Some b /\ bRoots !! i = Some r /\
                   db.IsFinalizedBlock (beaconDB s) ctx r = true) /\
    out `sublist_of` reverse bs /\
    (ascending bs -> nonIncreasing out).
Proof.
  intros Hdb Hlen. exists (finalizedOf s ctx bs bRoots).
  split; [|split; [reflexivity|split; [|split]]].
  - unfold loadFinalizedBlocks. rewrite Hdb. unfold_result.
    destruct (Nat.eqb_spec (length bs) (length bRoots)); [|contradiction]. simpl.
    rewrite finalizedLoop_finalizedOf by lia.
    rewrite take_ge by lia. rewrite take_ge by lia. reflexivity.
  - intros b. apply finalizedOf_elem_of.
  - apply finalizedOf_sublist, Hlen.
  - intros Hasc. eapply StronglySorted_sublist_of.
    + apply finalizedOf_sublist, Hlen.
    + apply (StronglySorted_reverse _ _ Hasc).
Qed.

Lemma loadFinalizedBlocks_finalized_only_witness :
  exists out,
    loadFinalizedBlocks
      (ColdScenario.coldDB Scenario.forkedBlocks Scenario.forkedRoots [1; 2; 4])
      Scenario.live 1 4 = Ok out /\
    out = [Scenario.blockWith 3 2 4; Scenario.blockWith 2 1 2; Scenario.blockWith 1 0 1] /\
    nonIncreasing out.
Proof.
  destruct (loadFinalizedBlocks_finalized_only
              (ColdScenario.coldDB Scenario.forkedBlocks Scenario.forkedRoots [1; 2; 4])
              Scenario.live 1 4 Scenario.forkedBlocks Scenario.forkedRoots
              eq_refl eq_refl) as (out & Hload & Hout & _ & _ & Hsorted).
  exists out. split; [exact Hload|]. split.
  - rewrite Hout. vm_compute. reflexivity.
  - apply Hsorted. repeat constructor; simpl; lia.
Defined.

(** X7. A segment returned by [loadBlocks] lists blocks of the batch in the
    reverse of the order of the batch; on a batch of ascending slots it is in
    slot-descending order, as the comment of the function says. *)
Theorem loadBlocks_descending (s : State) (ctx : context.Context)
    (startSlot endSlot : primitives.Slot) (endBlockRoot : N)
    (blks : list Block) (roots : list N) (seg : list Block) :
  db.Blocks (beaconDB s) ctx
    {| filters.StartSlot := startSlot; filters.EndSlot := endSlot |}
    = inl (blks, roots) ->
  loadBlocks s ctx startSlot endSlot endBlockRoot = Ok seg ->
  seg `sublist_of` reverse blks /\ (ascending blks -> nonIncreasing seg).
Proof.
  intros Hdb Hload.
  assert (seg `sublist_of` reverse blks) as Hsub.
  { unfold loadBlocks in Hload.
    destruct (endSlot <? startSlot); [discriminate|].
    rewrite Hdb in Hload. unfold_result.
    destruct (Nat.eqb_spec (length blks) (length roots)) as [Hlen|]; [|discriminate].
    destruct (Nat.eqb_spec (length blks) 0) as [|Hpos];
      [inversion Hload; apply sublist_nil_l|].
    simpl in Hload.
    destruct (narrowLoop ctx blks roots endBlockRoot (length blks)) as [len| |] eqn:Hn;
      try discriminate.
    apply narrowLoop_bounds in Hn; [|lia].
    destruct (roots !! (len - 1)%nat) as [r|]; [|discriminate].
    destruct (negb (r =? endBlockRoot)); [discriminate|].
    destruct (blks !! (len - 1)%nat) as [b|] eqn:Hb; [|discriminate].
    apply walkLoop_sublist in Hload as (added & -> & Hadded); [|lia].
    transitivity (reverse (take len blks)).
    - replace len with (S (len - 1)) at 1 by lia.
      rewrite (reverse_take_S _ _ _ Hb). apply sublist_skip, Hadded.
    - apply sublist_of_reverse, sublist_take. }
  split; [exact Hsub|].
  intros Hasc. eapply StronglySorted_sublist_of; [exact Hsub|].
  apply (StronglySorted_reverse _ _ Hasc).
Qed.

Lemma loadBlocks_descending_witness :
  nonIncreasing
    [Scenario.blockWith 4 4 6; Scenario.blockWith 3 2 4;
     Scenario.blockWith 2 1 2; Scenario.blockWith 1 0 1].
Proof.
  apply (loadBlocks_descending
           (Scenario.fixedDB Scenario.forkedBlocks Scenario.forkedRoots)
           Scenario.live 1 4 6 Scenario.forkedBlocks Scenario.forkedRoots).
  - reflexivity.
  - vm_compute. reflexivity.
  - repeat constructor; simpl; lia.
Defined.

(** X8. When the batch the database returns holds no nil block,
    [loadBlocks] does not panic: after the test of the two counts every index
    it reads is in range.  [loadFinalizedBlocks] calls no method of a block
    and reads its indices in range on any batch. *)
Theorem loaders_never_panic (s : State) (ctx : context.Context)
    (startSlot endSlot : primitives.Slot) (endBlockRoot : N) :
  (forall blks roots,
     db.Blocks (beaconDB s) ctx
       {| filters.StartSlot := startSlot; filters.EndSlot := endSlot |}
       = inl (blks, roots) ->
     Forall (fun b => interfaces.IsNil b = false) blks) ->
  loadBlocks s ctx startSlot endSlot endBlockRoot <> Panic /\
  loadFinalizedBlocks s ctx startSlot endSlot <> Panic.
Proof.
  intros _. split.
  - unfold loadBlocks.
    destruct (endSlot <? startSlot); [discriminate|].
    destruct (db.Blocks (beaconDB s) ctx _) as [[blks roots]|e]; [|discriminate].
    unfold_result.
    destruct (Nat.eqb_spec (length blks) (length roots)) as [Hlen|]; [|discriminate].
    destruct (Nat.eqb_spec (length blks) 0) as [|Hpos]; [discriminate|]. simpl.
    pose proof (narrowLoop_no_panic ctx blks roots endBlockRoot (length blks) Hlen
                  ltac:(lia)) as Hnp.
    destruct (narrowLoop ctx blks roots endBlockRoot (length blks)) as [len| |] eqn:Hn;
      [|discriminate|contradiction].
    apply narrowLoop_bounds in Hn; [|lia].
    destruct (lookup_lt_is_Some_2 roots (len - 1)) as [r ->]; [lia|].
    destruct (negb (r =? endBlockRoot)); [discriminate|].
    destruct (lookup_lt_is_Some_2 blks (len - 1)) as [b ->]; [lia|].
    apply walkLoop_no_panic; [assumption | lia | discriminate].
  - destruct (loadFinalizedBlocks_outcome s ctx startSlot endSlot)
      as [[e ->]|[->|[out ->]]]; discriminate.
Qed.

Lemma loaders_never_panic_witness :
  loadBlocks (Scenario.fixedDB Scenario.forkedBlocks Scenario.forkedRoots)
    Scenario.live 1 4 6 <> Panic /\
  loadFinalizedBlocks (Scenario.fixedDB Scenario.forkedBlocks Scenario.forkedRoots)
    Scenario.live 1 4 <> Panic.
Proof.
  apply loaders_never_panic.
  intros blks roots Hdb. simpl in Hdb. inversion Hdb. subst.
  repeat constructor.
Defined.

(** X9. On a valid range and a context that is not cancelled, when the
    batch is not empty and the end block root is the root of none of its
    blocks, [loadBlocks] fails with "end block roots don't match". *)
Theorem loadBlocks_terminal_absent (s : State) (ctx : context.Context)
    (startSlot endSlot : primitives.Slot) (endBlockRoot : N)
    (blks : list Block) (roots : list N) :
  startSlot <= endSlot ->
  context.Err ctx = None ->
  db.Blocks (beaconDB s) ctx
    {| filters.StartSlot := startSlot; filters.EndSlot := endSlot |}
    = inl (blks, roots) ->
  length blks = length roots -> blks <> [] ->
  endBlockRoot ∉ roots ->
  loadBlocks s ctx startSlot endSlot endBlockRoot = Fail ErrEndRootsMismatch.
Proof.
  intros Hrange Hctx Hdb Hlen Hne Habsent.
  rewrite (loadBlocks_answered s ctx _ _ _ _ _ Hrange Hdb Hlen Hne).
  assert (1 <= length blks)%nat as Hpos by (destruct blks; [congruence | simpl; lia]).
  destruct (narrowLoop ctx blks roots endBlockRoot (length blks)) as [len|e|] eqn:Hn.
  - apply narrowLoop_bounds in Hn; [|lia].
    destruct (lookup_lt_is_Some_2 roots (len - 1)) as [r Hr]; [lia|].
    destruct (lookup_lt_is_Some_2 blks (len - 1)) as [b Hb]; [lia|].
    rewrite Hr, Hb.
    destruct (N.eqb_spec r endBlockRoot) as [->|]; [|reflexivity].
    exfalso. apply Habsent. eapply list_elem_of_lookup_2, Hr.
  - apply narrowLoop_Fail_inv in Hn as (c & Hc & _). congruence.
  - exfalso. eapply narrowLoop_no_panic; [exact Hlen | | exact Hn]. lia.
Qed.

Lemma loadBlocks_terminal_absent_witness :
  loadBlocks (Scenario.fixedDB Scenario.forkedBlocks Scenario.forkedRoots)
    Scenario.live 1 4 9 = Fail ErrEndRootsMismatch.
Proof.
  apply (loadBlocks_terminal_absent
           (Scenario.fixedDB Scenario.forkedBlocks Scenario.forkedRoots)
           Scenario.live 1 4 9 Scenario.forkedBlocks Scenario.forkedRoots).
  - lia.
  - reflexivity.
  - reflexivity.
  - reflexivity.
  - discriminate.
  - unfold Scenario.forkedRoots. rewrite !not_elem_of_cons.
    repeat split; try discriminate. apply not_elem_of_nil.
Defined.

(** X10. On a valid range and a context that is not cancelled, when every
    block of the batch but the first has for parent root the root listed just
    before its own and the end block root is the last root of the batch,
    [loadBlocks] returns the whole batch, newest block first. *)
Theorem loadBlocks_linear_chain (s : State) (ctx : context.Context)
    (startSlot endSlot : primitives.Slot) (endBlockRoot : N)
    (blks : list Block) (roots : list N) :
  startSlot <= endSlot ->
  context.Err ctx = None ->
  db.Blocks (beaconDB s) ctx
    {| filters.StartSlot := startSlot; filters.EndSlot := endSlot |}
    = inl (blks, roots) ->
  length blks = length roots -> blks <> [] ->
  roots !! (length blks - 1)%nat = Some endBlockRoot ->
  (forall i b, blks !! S i = Some b -> roots !! i = Some (interfaces.ParentRoot b)) ->
  loadBlocks s ctx startSlot endSlot endBlockRoot = Ok (reverse blks).
Proof.
  intros Hrange Hctx Hdb Hlen Hne Hlast Hchain.
  rewrite (loadBlocks_answered s ctx _ _ _ _ _ Hrange Hdb Hlen Hne).
  rewrite (narrowLoop_terminal_last ctx _ _ _ Hlen Hlast), Hlast, N.eqb_refl.
  assert (1 <= length blks)%nat as Hpos by (destruct blks; [congruence | simpl; lia]).
  destruct (lookup_lt_is_Some_2 blks (length blks - 1)) as [b Hb]; [lia|].
  rewrite Hb.
  pose proof (walkLoop_chain ctx blks roots Hctx Hlen Hchain (length blks - 1) [] b Hb)
    as Hwalk.
  cbn [app] in Hwalk. rewrite Hwalk.
  replace (S (length blks - 1)) with (length blks) by lia.
  rewrite take_ge by lia. reflexivity.
Qed.

Lemma loadBlocks_linear_chain_witness :
  loadBlocks (Scenario.fixedDB Scenario.chainBlocks Scenario.chainRoots)
    Scenario.live 1 3 3 = Ok (reverse Scenario.chainBlocks).
Proof.
  apply (loadBlocks_linear_chain
           (Scenario.fixedDB Scenario.chainBlocks Scenario.chainRoots)
           Scenario.live 1 3 3 Scenario.chainBlocks Scenario.chainRoots).
  - lia.
  - reflexivity.
  - reflexivity.
  - reflexivity.
  - discriminate.
  - reflexivity.
  - intros [|[|[|i]]] b Hb; simpl in Hb; inversion Hb; reflexivity.
Defined.

(** X11. The first loop of [loadBlocks] leaves a window that is not empty,
    and every block it drops has the slot of the last block of the batch: it
    never drops a block of an older slot. *)
Theorem narrowLoop_drops_newest_slot (ctx : context.Context)
    (blks : list Block) (roots : list N) (endBlockRoot : N) (len len' : nat) :
  (1 <= len)%nat ->
  narrowLoop ctx blks roots endBlockRoot len = Ok len' ->
  (1 <= len' <= len)%nat /\
  (forall i b newest,
     (len' <= i < len)%nat -> blks !! i = Some b ->
     blks !! (len - 1)%nat = Some newest ->
     interfaces.Slot b = interfaces.Slot newest).
Proof.
  intros Hlen Hn. split.
  - eapply narrowLoop_bounds; eassumption.
  - eapply narrowLoop_same_slot; eassumption.
Qed.

Lemma narrowLoop_drops_newest_slot_witness :
  narrowLoop Scenario.live Scenario.forkedBlocks [1; 2; 3; 5; 4; 6] 5 5%nat = Ok 4%nat /\
  (1 <= 4 <= 5)%nat.
Proof.
  split; [vm_compute; reflexivity|].
  apply (narrowLoop_drops_newest_slot Scenario.live Scenario.forkedBlocks
           [1; 2; 3; 5; 4; 6] 5 5%nat 4%nat).
  - lia.
  - vm_compute. reflexivity.
Defined.

(** X12. Whatever the context and the range, a segment returned by
    [loadBlocks] is empty only for an empty batch; otherwise its first block
    is a block of the batch whose root is the end block root, and the blocks
    after it are its canonical chain in the batch. *)
Theorem loadBlocks_sound (s : State) (ctx : context.Context)
    (startSlot endSlot : primitives.Slot) (endBlockRoot : N)
    (blks : list Block) (roots : list N) (seg : list Block) :
  db.Blocks (beaconDB s) ctx
    {| filters.StartSlot := startSlot; filters.EndSlot := endSlot |}
    = inl (blks, roots) ->
  loadBlocks s ctx startSlot endSlot endBlockRoot = Ok seg ->
  (blks = [] /\ seg = []) \/
  (exists cur b0 idxs rest,
     seg = b0 :: rest /\
     blks !! cur = Some b0 /\
     roots !! cur = Some endBlockRoot /\
     Canonical blks roots cur b0 idxs rest).
Proof.
  intros Hdb Hload. unfold loadBlocks in Hload.
  destruct (endSlot <? startSlot); [discriminate|].
  rewrite Hdb in Hload. unfold_result.
  destruct (Nat.eqb_spec (length blks) (length roots)) as [Hlen|]; [|discriminate].
  destruct (Nat.eqb_spec (length blks) 0) as [H0|Hpos].
  { left. inversion Hload. split; [|reflexivity]. destruct blks; [reflexivity | discriminate]. }
  right. simpl in Hload.
  destruct (narrowLoop ctx blks roots endBlockRoot (length blks)) as [len| |] eqn:Hn;
    try discriminate.
  apply narrowLoop_bounds in Hn; [|lia].
  destruct (roots !! (len - 1)%nat) as [r|] eqn:Hr; [|discriminate].
  destruct (N.eqb_spec r endBlockRoot) as [->|]; [|discriminate].
  destruct (blks !! (len - 1)%nat) as [b|] eqn:Hb; [|discriminate].
  simpl in Hload.
  destruct (walkLoop_Ok_canonical ctx blks roots (len - 1) [] (len - 1) b seg)
    as (idxs & rest & -> & Hcanon);
    [assumption | lia | lia | exact Hb | intros c Hc; lia | exact Hload |].
  exists (len - 1)%nat, b, idxs, rest. auto.
Qed.

Lemma loadBlocks_sound_witness :
  exists cur b0 idxs rest,
    [Scenario.blockWith 4 1 21] = b0 :: rest /\
    Scenario.staleBlocks !! cur = Some b0 /\
    Scenario.staleRoots !! cur = Some 21 /\
    Canonical Scenario.staleBlocks Scenario.staleRoots cur b0 idxs rest.
Proof.
  destruct (loadBlocks_sound
              (Scenario.fixedDB Scenario.staleBlocks Scenario.staleRoots)
              Scenario.live 4 5 21 Scenario.staleBlocks Scenario.staleRoots
              [Scenario.blockWith 4 1 21] eq_refl) as [[Hnil _]|Hseg].
  - vm_compute. reflexivity.
  - discriminate Hnil.
  - exact Hseg.
Defined.

(** * Composition and edge cases *)

Section ReplayCompose.
Context {St : Type} `{!state.BeaconState St} (T : transition.Primitives St).

(** The loop over a segment is the loop over its older part followed by the
    loop over its newer part. *)
Lemma replayLoop_app ctx newer older t : forall k (s : St),
  (k <= length older)%nat ->
  replayLoop T ctx (newer ++ older) t (length newer + k) s =
  match replayLoop T ctx older t k s with
  | Ok s1 => replayLoop T ctx newer t (length newer) s1
  | Fail e => Fail e
  | Panic => Panic
  end.
Proof.
  induction k as [|k IH]; intros s Hk.
  - rewrite Nat.add_0_r. simpl. apply replayLoop_app_l. lia.
  - rewrite Nat.add_succ_r, !replayLoop_S.
    destruct (context.Err ctx) as [e|] eqn:Hctx; [reflexivity|].
    destruct (N.leb_spec t (state.Slot s)) as [Ht|Ht].
    { symmetry. apply replayLoop_target_reached; assumption. }
    rewrite lookup_app_r by lia.
    replace (length newer + k - length newer)%nat with k by lia.
    destruct (older !! k) as [b|]; [|reflexivity].
    destruct (interfaces.Slot b <=? state.Slot s); [apply IH; lia|].
    destruct (executeStateTransitionStateGen T ctx s b); try reflexivity.
    apply IH. lia.
Qed.
End ReplayCompose.

(** X13. Replaying a segment is replaying its older part with the loop of
    [replayBlocks] and then calling [replayBlocks] on its newer part from the
    state reached; an error of the older part is the error of the whole. *)
Theorem replayBlocks_app {St : Type} `{!state.BeaconState St}
    (T : transition.Primitives St) (ctx : context.Context) (s : St)
    (newer older : list Block) (targetSlot : primitives.Slot) :
  replayBlocks T ctx (Some s) (newer ++ older) targetSlot =
  match replayLoop T ctx older targetSlot (length older) s with
  | Ok s1 => replayBlocks T ctx (Some s1) newer targetSlot
  | Fail e => Fail e
  | Panic => Panic
  end.
Proof.
  rewrite replayBlocks_Some, length_app, replayLoop_app by lia.
  destruct (replayLoop T ctx older targetSlot (length older) s) as [s1| |];
    try reflexivity.
  rewrite replayBlocks_Some. reflexivity.
Qed.

(** X14. On a batch of exactly one block [loadBlocks] runs no iteration of
    its loops and so never reads the context: it returns that block when its
    root is the end block root, also under a cancelled context, and fails
    with "end block roots don't match" otherwise. *)
Theorem loadBlocks_single_block (s : State) (ctx : context.Context)
    (startSlot endSlot : primitives.Slot) (endBlockRoot : N)
    (b : Block) (r : N) :
  startSlot <= endSlot ->
  db.Blocks (beaconDB s) ctx
    {| filters.StartSlot := startSlot; filters.EndSlot := endSlot |}
    = inl ([b], [r]) ->
  loadBlocks s ctx startSlot endSlot endBlockRoot =
  if r =? endBlockRoot then Ok [b] else Fail ErrEndRootsMismatch.
Proof.
  intros Hrange Hdb. unfold loadBlocks.
  destruct (N.ltb_spec endSlot startSlot); [lia|].
  rewrite Hdb. simpl. unfold_result. simpl.
  destruct (r =? endBlockRoot); reflexivity.
Qed.

Lemma loadBlocks_single_block_witness :
  loadBlocks (Scenario.fixedDB [Scenario.blockWith 5 1 11] [11])
    Scenario.cancelled 5 5 11 = Ok [Scenario.blockWith 5 1 11].
Proof.
  apply (loadBlocks_single_block
           (Scenario.fixedDB [Scenario.blockWith 5 1 11] [11])
           Scenario.cancelled 5 5 11 (Scenario.blockWith 5 1 11) 11).
  - lia.
  - reflexivity.
Defined.

(** X15. What the database returns decides the first outcomes of both
    loaders in the same way: its error comes back as it is, a batch whose
    counts of blocks and roots differ gives "length of blocks and roots
    don't match", and an empty batch gives an empty segment and no error,
    whatever the end block root. *)
Theorem loaders_storage_answers (s : State) (ctx : context.Context)
    (startSlot endSlot : primitives.Slot) (endBlockRoot : N) :
  startSlot <= endSlot ->
  (forall e,
     db.Blocks (beaconDB s) ctx
       {| filters.StartSlot := startSlot; filters.EndSlot := endSlot |} = inr e ->
     loadBlocks s ctx startSlot endSlot endBlockRoot = Fail (ErrExternal e) /\
     loadFinalizedBlocks s ctx startSlot endSlot = Fail (ErrExternal e)) /\
  (forall blks roots,
     db.Blocks (beaconDB s) ctx
       {| filters.StartSlot := startSlot; filters.EndSlot := endSlot |}
       = inl (blks, roots) ->
     length blks <> length roots ->
     loadBlocks s ctx startSlot endSlot endBlockRoot = Fail ErrLengthMismatch /\
     loadFinalizedBlocks s ctx startSlot endSlot = Fail ErrLengthMismatch) /\
  (db.Blocks (beaconDB s) ctx
     {| filters.StartSlot := startSlot; filters.EndSlot := endSlot |}
     = inl ([], []) ->
   loadBlocks s ctx startSlot endSlot endBlockRoot = Ok [] /\
   loadFinalizedBlocks s ctx startSlot endSlot = Ok []).
Proof.
  intros Hrange. unfold loadBlocks, loadFinalizedBlocks.
  destruct (N.ltb_spec endSlot startSlot); [lia|].
  split; [|split].
  - intros e ->. split; reflexivity.
  - intros blks roots -> Hne. unfold_result.
    destruct (Nat.eqb_spec (length blks) (length roots)); [contradiction|].
    split; reflexivity.
  - intros ->. split; reflexivity.
Qed.

Lemma loaders_storage_answers_witness :
  loadBlocks (Scenario.fixedDB Scenario.chainBlocks [1; 2]) Scenario.live 1 3 3
    = Fail ErrLengthMismatch /\
  loadFinalizedBlocks (Scenario.fixedDB Scenario.chainBlocks [1; 2]) Scenario.live 1 3
    = Fail ErrLengthMismatch.
Proof.
  destruct (loaders_storage_answers
              (Scenario.fixedDB Scenario.chainBlocks [1; 2]) Scenario.live 1 3 3)
    as (_ & Hcount & _); [lia|].
  apply (Hcount Scenario.chainBlocks [1; 2] eq_refl). simpl. lia.
Defined.

(** * The target is a floor, not a cap *)

Section Forward.
Context {St : Type} `{!state.BeaconState St} (T : transition.Primitives St).

(** The slot contract of the transition functions, as far as this file
    relies on it: asked to go forward, [ProcessSlotsCore] ends at the slot
    asked for; [ProcessBlockForStateRoot] leaves the slot where it is. *)
Hypothesis slots_forward : forall ctx (s s' : St) t,
  state.Slot s < t ->
  transition.ProcessSlotsCore T ctx s t = inl s' -> state.Slot s' = t.
Hypothesis block_keeps : forall ctx (s s' : St) b,
  transition.ProcessBlockForStateRoot T ctx s b = inl s' ->
  state.Slot s' = state.Slot s.




End Forward.




